(** * Plex video importer: planning and execution of library reorganisations

    A shallow embedding of the maintenance scripts of the repository
    (scripts/ and tmp-scripts/) and the properties of their planning and
    execution logic.

    Conventions of the embedding.
    - A Python [str] is a list of characters, [str := list ascii]; a
      character stands for the code point of the same number, so the model
      covers text over code points below 256.  (The full-width colon of
      [strip_prefix] lies outside this alphabet.)
    - The file system is a finite map from path strings to nodes; every
      mutating call returns the new file system or an error.
    - Regular expressions of the scripts are written out as the string
      functions they denote; each one quotes its pattern. *)

From Stdlib Require Import Ascii String DecimalString DecimalNat.
From stdpp Require Import gmap strings list sorting.

Open Scope string_scope.
Open Scope list_scope.
Open Scope nat_scope.

Abbreviation str := (list ascii).
Coercion list_ascii_of_string : string >-> list.

(** ** Characters *)

(** [str.isspace] and the class [\s] of [re] on code points below 256. *)
Definition is_space (c : ascii) : bool :=
  let n := nat_of_ascii c in
  ((9 <=? n) && (n <=? 13)) || ((28 <=? n) && (n <=? 32))
  || (n =? 133) || (n =? 160).

(** [[0-9]], which is also [\d] below 256. *)
Definition is_digit (c : ascii) : bool :=
  let n := nat_of_ascii c in (48 <=? n) && (n <=? 57).

Definition digit_val (c : ascii) : nat := nat_of_ascii c - 48.

(** [str.lower] on one character: A-Z and the Latin-1 capitals. *)
Definition lower (c : ascii) : ascii :=
  let n := nat_of_ascii c in
  if ((65 <=? n) && (n <=? 90))
     || ((192 <=? n) && (n <=? 222) && negb (n =? 215))
  then ascii_of_nat (n + 32) else c.

Definition chr_eqb (a b : ascii) : bool := bool_decide (a = b).

(** ** Strings *)

Fixpoint drop_while (p : ascii → bool) (s : str) : str :=
  match s with
  | [] => []
  | c :: t => if p c then drop_while p t else s
  end.

Fixpoint take_while (p : ascii → bool) (s : str) : str :=
  match s with
  | [] => []
  | c :: t => if p c then c :: take_while p t else []
  end.

Definition lstrip_by (p : ascii → bool) (s : str) : str := drop_while p s.
Definition rstrip_by (p : ascii → bool) (s : str) : str :=
  reverse (drop_while p (reverse s)).
Definition strip_by (p : ascii → bool) (s : str) : str :=
  rstrip_by p (lstrip_by p s).

(** [s.strip()] *)
Definition strip (s : str) : str := strip_by is_space s.

(** [s.strip(chars)] *)
Definition strip_chars (chars : str) (s : str) : str :=
  strip_by (λ c, bool_decide (c ∈ chars)) s.

Fixpoint startswith (s p : str) : bool :=
  match p, s with
  | [], _ => true
  | _ :: _, [] => false
  | a :: p', b :: s' => chr_eqb a b && startswith s' p'
  end.

Definition endswith (s p : str) : bool :=
  startswith (reverse s) (reverse p).

(** [p in s] for strings *)
Fixpoint contains (s p : str) : bool :=
  startswith s p ||
  match s with
  | [] => false
  | _ :: t => contains t p
  end.

Definition str_lower (s : str) : str := map lower s.

(** [int(s)] for a string of decimal digits. *)
Definition int_of_digits (s : str) : nat :=
  foldl (λ acc c, 10 * acc + digit_val c) 0 s.

(** [str(n)] and the f-string [{n}] for a non-negative integer. *)
Definition str_of_nat (n : nat) : str :=
  list_ascii_of_string (NilEmpty.string_of_uint (Nat.to_uint n)).

(** The f-string [{n:02d}] *)
Definition pad2 (n : nat) : str :=
  if n <? 10 then "0" ++ str_of_nat n else str_of_nat n.

(** Splits at the last occurrence of [c]: [s = a ++ c :: b], [c ∉ b]. *)
Fixpoint rsplit (c : ascii) (s : str) : option (str * str) :=
  match s with
  | [] => None
  | x :: t =>
      match rsplit c t with
      | Some (a, b) => Some (x :: a, b)
      | None => if chr_eqb x c then Some ([], t) else None
      end
  end.

(** [WS_RE.sub(' ', s)] with [WS_RE = r'\s+']: every run of white space becomes one
    space.  [in_ws] tells that the previous character was white space. *)
Fixpoint ws_sub (in_ws : bool) (s : str) : str :=
  match s with
  | [] => []
  | c :: t =>
      if is_space c then
        if in_ws then ws_sub true t else " "%char :: ws_sub true t
      else c :: ws_sub false t
  end.

(** [WS_RE.sub(' ', s).strip()] *)
Definition ws_collapse (s : str) : str := strip (ws_sub false s).

(** [INVALID_FS]: one of the characters backslash, slash, colon, star,
    question mark, double quote, less, greater, bar. *)
Definition is_invalid_fs (c : ascii) : bool :=
  bool_decide (c ∈ [ "\"%char; "/"%char; ":"%char; "*"%char; "?"%char;
                     "034"%char; "<"%char; ">"%char; "|"%char ]).

(** [safe_component], the same in reorg_plex_tv.py,
    jtswing_single_show.py, organize_uscreen_tree_as_show.py and
    organize_dance_tvshows.py. *)
Definition safe_component (s : str) : str :=
  ws_collapse (map (λ c, if is_invalid_fs c then " "%char else c) s).

(** [s.replace(a, b)] for a single character [a]. *)
Definition replace_chr (a : ascii) (b : str) (s : str) : str :=
  concat (map (λ c, if chr_eqb c a then b else [c]) s).

(** [s.replace(a, b)] for a non-empty [a]; [skip] counts the characters
    of a replaced occurrence still to pass. *)
Fixpoint replace_go (a b : str) (skip : nat) (s : str) : str :=
  match s with
  | [] => []
  | c :: t =>
      match skip with
      | S k => replace_go a b k t
      | 0 =>
          if startswith s a then b ++ replace_go a b (length a - 1) t
          else c :: replace_go a b 0 t
      end
  end.

Definition replace_str (a b s : str) : str := replace_go a b 0 s.

(** The distinct elements of a list, each at its first place. *)
Definition distinct (l : list str) : list str :=
  foldl (λ acc x, if bool_decide (x ∈ acc) then acc else acc ++ [x]) [] l.

(** ** [os.path] (posix) *)

Definition basename (p : str) : str :=
  match rsplit "/" p with
  | Some (_, b) => b
  | None => p
  end.

Definition all_slashes (s : str) : bool := forallb (chr_eqb "/") s.

Definition dirname (p : str) : str :=
  match rsplit "/" p with
  | Some (a, _) =>
      let head := a ++ "/" in
      if all_slashes head then head else rstrip_by (chr_eqb "/") head
  | None => []
  end.

Definition join (a b : str) : str :=
  if startswith b "/" then b
  else if bool_decide (a = []) || endswith a "/" then a ++ b
  else a ++ "/" ++ b.

Definition join_all (a : str) (ps : list str) : str := foldl join a ps.

(** The operating system ignores the slashes at the end of a path. *)
Definition canon (p : str) : str :=
  if all_slashes p then p else rstrip_by (chr_eqb "/") p.

(** [os.path.splitext]: the extension starts at the last dot of the last
    component, unless only dots precede it there. *)
Definition splitext (p : str) : str * str :=
  let '(dir, name) :=
    match rsplit "/" p with
    | Some (d, n) => (d ++ "/", n)
    | None => ([], p)
    end in
  match rsplit "." name with
  | Some (stem, e) =>
      if forallb (chr_eqb ".") stem then (p, [])
      else (dir ++ stem, "." ++ e)
  | None => (p, [])
  end.

(** ** Regular expressions

    The patterns of the scripts, as syntax trees, and a backtracking matcher
    with the priorities of Python's [re]: the first alternative first, a
    greedy repetition as long as possible first, a lazy one as short as
    possible first. *)

Inductive re :=
| Chr (p : ascii → bool)      (** one character of a class *)
| Eps
| Seq (a b : re)
| Alt (a b : re)
| Star (greedy : bool) (a : re)
| Grp (name : string) (a : re) (** a named group *)
| Bol                          (** [^] *)
| Eol                          (** [$]: the end, or before a final newline *)
| WordB.                       (** [\b] *)

(** The class of word characters, below 256 *)
Definition is_word (c : ascii) : bool :=
  let n := nat_of_ascii c in
  is_digit c || ((65 <=? n) && (n <=? 90)) || ((97 <=? n) && (n <=? 122))
  || (n =? 95)
  || bool_decide (n ∈ [170; 178; 179; 181; 185; 186; 188; 189; 190])
  || ((192 <=? n) && (n <=? 255) && negb (n =? 215) && negb (n =? 247)).

Definition newline : ascii := "010".

(** The state of a match: the text before the position (reversed), the
    text from the position on, and the groups closed so far. *)
Record mstate := MState {
  seen_rev : str;
  rest : str;
  groups : list (string * str);
}.

Definition at_word_boundary (st : mstate) : bool :=
  let before := match seen_rev st with c :: _ => is_word c | [] => false end in
  let after := match rest st with c :: _ => is_word c | [] => false end in
  xorb before after.

Fixpoint re_go {R : Type} (r : re) (st : mstate)
    (k : mstate → option R) : option R :=
  match r with
  | Chr p =>
      match rest st with
      | c :: t => if p c then k (MState (c :: seen_rev st) t (groups st))
                  else None
      | [] => None
      end
  | Eps => k st
  | Seq a b => re_go a st (λ st', re_go b st' k)
  | Alt a b =>
      match re_go a st k with
      | Some x => Some x
      | None => re_go b st k
      end
  | Star greedy a =>
      (fix star (n : nat) (st : mstate) {struct n} : option R :=
         match n with
         | 0 => k st
         | S n' =>
             if greedy then
               match
                 re_go a st (λ st',
                   if length (rest st') <? length (rest st)
                   then star n' st' else None)
               with
               | Some x => Some x
               | None => k st
               end
             else
               match k st with
               | Some x => Some x
               | None =>
                   re_go a st (λ st',
                     if length (rest st') <? length (rest st)
                     then star n' st' else None)
               end
         end) (length (rest st)) st
  | Grp name a =>
      re_go a st (λ st',
        k (MState (seen_rev st') (rest st')
             ((name, take (length (rest st) - length (rest st')) (rest st))
                :: groups st')))
  | Bol => match seen_rev st with [] => k st | _ => None end
  | Eol =>
      match rest st with
      | [] => k st
      | [c] => if chr_eqb c newline then k st else None
      | _ => None
      end
  | WordB => if at_word_boundary st then k st else None
  end.

(** The match of [r] at the position of [st], if any: the state after it. *)
Definition re_at (r : re) (st : mstate) : option mstate := re_go r st Some.

(** [rx.match(s)] *)
Definition re_match (r : re) (s : str) : option mstate :=
  re_at r (MState [] s []).

(** [rx.search(s)] from a position on: the leftmost match, as the reversed
    text before it and the state after it. *)
Fixpoint re_search_go (r : re) (before_rev s : str)
    : option (str * mstate) :=
  match re_at r (MState before_rev s []) with
  | Some st' => Some (before_rev, st')
  | None =>
      match s with
      | [] => None
      | c :: t => re_search_go r (c :: before_rev) t
      end
  end.

Definition re_search (r : re) (s : str) : option mstate :=
  snd <$> re_search_go r [] s.

(** [m.group(name)] *)
Definition group (name : string) (m : mstate) : str :=
  match list_find (λ g, g.1 = name) (groups m) with
  | Some (_, (_, v)) => v
  | None => []
  end.

(** [rx.sub(repl, s, count)] for a pattern that matches no empty string
    (every pattern the scripts substitute needs a character); [count] is
    [None] for all matches.  [fuel] bounds the number of matches. *)
Fixpoint re_sub_go (fuel : nat) (r : re) (repl : str) (count : option nat)
    (before_rev s : str) : str :=
  match fuel with
  | 0 => s
  | S fuel' =>
      if bool_decide (count = Some 0) then s else
      match re_search_go r before_rev s with
      | None => s
      | Some (start_rev, st') =>
          let skipped := take (length start_rev - length before_rev) s in
          if length (rest st') <? length s - length skipped then
            skipped ++ repl
              ++ re_sub_go fuel' r repl (Nat.pred <$> count)
                   (seen_rev st') (rest st')
          else s
      end
  end.

Definition re_sub (r : re) (repl : str) (count : option nat) (s : str)
    : str :=
  re_sub_go (length s) r repl count [] s.

(** Pattern syntax *)

(** A literal character, and one under [re.IGNORECASE]. *)
Definition lit (c : ascii) : re := Chr (chr_eqb c).
Definition lit_i (c : ascii) : re := Chr (λ x, chr_eqb (lower x) (lower c)).

Definition lits (s : str) : re := foldr (λ c r, Seq (lit c) r) Eps s.
Definition lits_i (s : str) : re := foldr (λ c r, Seq (lit_i c) r) Eps s.

(** [\d], [\s], [.] *)
Definition re_d : re := Chr is_digit.
Definition re_s : re := Chr is_space.
Definition re_dot : re := Chr (λ c, negb (chr_eqb c newline)).

(** [a+], [a+?] *)
Definition plus (greedy : bool) (a : re) : re := Seq a (Star greedy a).

(** [a{0,n}] *)
Fixpoint upto (n : nat) (a : re) : re :=
  match n with
  | 0 => Eps
  | S n' => Alt (Seq a (upto n' a)) Eps
  end.

(** [a{n}] *)
Fixpoint times (n : nat) (a : re) : re :=
  match n with
  | 0 => Eps
  | S n' => Seq a (times n' a)
  end.

(** [a{m,n}] *)
Definition between (m n : nat) (a : re) : re :=
  Seq (times m a) (upto (n - m) a).

Fixpoint seqs (rs : list re) : re :=
  match rs with
  | [] => Eps
  | [r] => r
  | r :: rs' => Seq r (seqs rs')
  end.

(** ** Errors *)

(** The exceptions the scripts raise or meet.  [OSError] stands for the
    remaining operating-system errors (not a directory, is a directory,
    permission); [SystemExit] is no [Exception]; [Diverges] marks a loop of
    the model that ran out of fuel. *)
Inductive exn :=
| FileNotFoundError (p : str)
| FileExistsError (p : str)
| OSError (p : str)
| SystemExit (msg : str)
| Diverges.

(** [except Exception] and [except OSError] *)
Definition is_Exception (e : exn) : bool :=
  match e with
  | FileNotFoundError _ | FileExistsError _ | OSError _ => true
  | SystemExit _ | Diverges => false
  end.

Inductive result (A : Type) :=
| Ok (a : A)
| Raise (e : exn).
Arguments Ok {A} a.
Arguments Raise {A} e.

Global Instance result_ret : MRet result := λ A, Ok.
Global Instance result_bind : MBind result := λ A B k m,
  match m with
  | Ok a => k a
  | Raise e => Raise e
  end.

(** ** File system *)

Inductive node :=
| File (content : nat)
| Dir.

Global Instance node_eq_dec : EqDecision node.
Proof. solve_decision. Defined.

Abbreviation fsys := (gmap str node).

Definition path_exists (fs : fsys) (p : str) : bool :=
  bool_decide (is_Some (fs !! p)).

Definition isdir (fs : fsys) (p : str) : bool :=
  bool_decide (fs !! p = Some Dir).

Definition isfile (fs : fsys) (p : str) : bool :=
  match fs !! p with
  | Some (File _) => true
  | _ => false
  end.

(** [os.listdir]: the names directly inside [d], in the order of the map
    (Python leaves the order unspecified). *)
Definition dir_prefix (d : str) : str :=
  if endswith d "/" then d else d ++ "/".

Fixpoint strip_head (p s : str) : option str :=
  match p, s with
  | [], _ => Some s
  | _ :: _, [] => None
  | a :: p', b :: s' => if chr_eqb a b then strip_head p' s' else None
  end.

Definition entry_name (d : str) (k : str) : option str :=
  match strip_head (dir_prefix d) k with
  | Some name =>
      if bool_decide (name ≠ []) && negb (bool_decide ("/"%char ∈ name))
      then Some name else None
  | None => None
  end.

Definition listdir (fs : fsys) (d : str) : list str :=
  omap (entry_name d) (elements (dom fs)).

(** ** The world of an executing script

    The file system, the system calls made so far and the lines printed or
    recorded so far. *)

Inductive syscall :=
| SysMkdir (p : str)
| SysRename (src dst : str)
| SysLink (src dst : str)
| SysCopy (src dst : str)
| SysWrite (p : str)
| SysRmdir (p : str).

(** A report line: the action word and its fields. *)
Record line := Line { action : str; fields : list str }.

Record world := World {
  w_fs : fsys;
  w_log : list syscall;
  w_out : list line;
}.

Definition io (A : Type) : Type := world → world * result A.

Global Instance io_ret : MRet io := λ A a w, (w, Ok a).
Global Instance io_bind : MBind io := λ A B k m w,
  match m w with
  | (w', Ok a) => k a w'
  | (w', Raise e) => (w', Raise e)
  end.

Definition raise {A} (e : exn) : io A := λ w, (w, Raise e).

(** [try: m except <caught>: h] *)
Definition try_except {A} (m : io A) (caught : exn → bool)
    (h : exn → io A) : io A := λ w,
  match m w with
  | (w', Raise e) => if caught e then h e w' else (w', Raise e)
  | r => r
  end.

Definition os_path_exists (p : str) : io bool := λ w,
  (w, Ok (path_exists (w_fs w) p)).

Definition emit (l : line) : io unit := λ w,
  (World (w_fs w) (w_log w) (w_out w ++ [l]), Ok ()).

Definition syscall_do (fs' : fsys) (c : syscall) : io unit := λ w,
  (World fs' (w_log w ++ [c]) (w_out w), Ok ()).

(** The directory a new entry goes into must exist. *)
Definition parent_ok (fs : fsys) (p : str) : bool :=
  let d := dirname p in
  bool_decide (d = []) || all_slashes d || isdir fs d.

(** [os.rename] and [os.replace] of a regular file; an existing regular
    file at [dst] is replaced.  Renaming a directory is outside the model
    and reported as [OSError]. *)
Definition os_rename (src dst : str) : io unit := λ w,
  let fs := w_fs w in
  match fs !! src with
  | None => (w, Raise (FileNotFoundError src))
  | Some Dir => (w, Raise (OSError src))
  | Some (File c) =>
      if negb (parent_ok fs dst) then (w, Raise (FileNotFoundError dst))
      else if isdir fs dst then (w, Raise (OSError dst))
      else syscall_do (<[dst := File c]> (delete src fs)) (SysRename src dst) w
  end.

(** [os.link] *)
Definition os_link (src dst : str) : io unit := λ w,
  let fs := w_fs w in
  match fs !! src with
  | None => (w, Raise (FileNotFoundError src))
  | Some Dir => (w, Raise (OSError src))
  | Some (File c) =>
      if negb (parent_ok fs dst) then (w, Raise (FileNotFoundError dst))
      else if path_exists fs dst then (w, Raise (FileExistsError dst))
      else syscall_do (<[dst := File c]> fs) (SysLink src dst) w
  end.

(** [shutil.copy2] *)
Definition shutil_copy2 (src dst : str) : io unit := λ w,
  let fs := w_fs w in
  match fs !! src with
  | None => (w, Raise (FileNotFoundError src))
  | Some Dir => (w, Raise (OSError src))
  | Some (File c) =>
      let dst' := if isdir fs dst then join dst (basename src) else dst in
      if negb (parent_ok fs dst') then (w, Raise (FileNotFoundError dst'))
      else if isdir fs dst' then (w, Raise (OSError dst'))
      else syscall_do (<[dst' := File c]> fs) (SysCopy src dst') w
  end.

(** [os.makedirs(d, exist_ok=True)]: creates [d] and its missing
    ancestors, outermost first. *)
Fixpoint makedirs_go (fuel : nat) (d : str) : io unit := λ w,
  let fs := w_fs w in
  match fs !! d with
  | Some Dir => (w, Ok ())
  | Some (File _) => (w, Raise (FileExistsError d))
  | None =>
      if bool_decide (d = []) then (w, Raise (FileNotFoundError d))
      else if all_slashes d then (w, Ok ())
      else
        match fuel with
        | 0 => (w, Raise Diverges)
        | S fuel' =>
            let up := dirname d in
            match
              (if bool_decide (up = []) then (w, Ok ())
               else makedirs_go fuel' up w)
            with
            | (w', Ok _) =>
                match w_fs w' !! up with
                | Some (File _) => (w', Raise (OSError d))
                | _ => syscall_do (<[d := Dir]> (w_fs w')) (SysMkdir d) w'
                end
            | (w', Raise e) =>
                (w', Raise (match e with
                            | FileExistsError p => OSError p
                            | _ => e
                            end))
            end
        end
  end.

Definition makedirs (d : str) : io unit := makedirs_go (length d) d.

(** [ensure_parent] of promote_plex_appletv_variants.py and
    reorg_plex_tv.py *)
Definition ensure_parent (path : str) : io unit := makedirs (dirname path).

(** [open(path, 'w')] and the writes through it: a regular file appears at
    [path] or is replaced there.  The written lines are kept in [w_out]. *)
Definition write_file (path : str) : io unit := λ w,
  let fs := w_fs w in
  if negb (parent_ok fs path) then (w, Raise (FileNotFoundError path))
  else if isdir fs path then (w, Raise (OSError path))
  else syscall_do (<[path := File 0]> fs) (SysWrite path) w.

(** [os.rmdir] *)
Definition os_rmdir (d : str) : io unit := λ w,
  let fs := w_fs w in
  match fs !! d with
  | None => (w, Raise (FileNotFoundError d))
  | Some (File _) => (w, Raise (OSError d))
  | Some Dir =>
      if bool_decide (listdir fs d = []) then
        syscall_do (delete d fs) (SysRmdir d) w
      else (w, Raise (OSError d))
  end.

(** ** [sorted] on strings: by code point, lexicographic *)

Fixpoint str_leb (a b : str) : bool :=
  match a, b with
  | [], _ => true
  | _ :: _, [] => false
  | x :: a', y :: b' =>
      if nat_of_ascii x <? nat_of_ascii y then true
      else if chr_eqb x y then str_leb a' b' else false
  end.

Definition str_le (a b : str) : Prop := str_leb a b = true.

Global Instance str_le_dec : RelDecision str_le.
Proof. intros a b. unfold str_le. apply _. Defined.

Definition sorted (l : list str) : list str := merge_sort str_le l.

(** ** [unique_path]

    The same function in garysusan_rename_episode_files.py,
    jtswing_single_show.py, organize_uscreen_tree_as_show.py and
    organize_dance_tvshows.py. *)

(** The f-string [{base} ({n}){ext}] *)
Definition suffixed (base : str) (n : nat) (ext : str) : str :=
  base ++ " (" ++ str_of_nat n ++ ")" ++ ext.

(** The [while] loop, counted by [fuel]. *)
Fixpoint probe (fs : fsys) (base ext : str) (fuel n : nat) : option str :=
  match fuel with
  | 0 => None
  | S fuel' =>
      if path_exists fs (suffixed base n ext)
      then probe fs base ext fuel' (S n)
      else Some (suffixed base n ext)
  end.

Definition unique_path (fs : fsys) (path : str) : option str :=
  if negb (path_exists fs path) then Some path
  else
    let '(base, ext) := splitext path in
    probe fs base ext (S (size fs)) 2.


(** * scripts/promote_plex_appletv_variants.py *)

Module promote.

Record PlanItem := {
  variant : str;
  original : str;
  backup_original : str;
}.

Definition promote_one (p : PlanItem) : io unit :=
  v ← os_path_exists (variant p);
  if negb v then raise (FileNotFoundError (variant p)) else
  o ← os_path_exists (original p);
  if negb o then raise (FileNotFoundError (original p)) else
  b ← os_path_exists (backup_original p);
  if b : bool then raise (FileExistsError (backup_original p)) else
  ensure_parent (backup_original p);;
  os_rename (original p) (backup_original p);;
  ensure_parent (original p);;
  os_rename (variant p) (original p).

Definition promote_one_delete_original (p : PlanItem) : io unit :=
  v ← os_path_exists (variant p);
  if negb v then raise (FileNotFoundError (variant p)) else
  ensure_parent (original p);;
  os_rename (variant p) (original p).

(** The body of the apply loop of [main], for one plan item. *)
Definition apply_one (delete_originals : bool) (p : PlanItem)
    : io bool :=
  try_except
    ((if delete_originals then promote_one_delete_original p
      else promote_one p);;
     emit (Line "DONE" [original p]);;
     mret true)
    is_Exception
    (λ e, emit (Line "ERROR" [variant p]);; mret false).

(** The apply loop of [main]: returns the number of errors. *)
Fixpoint apply_plan (delete_originals : bool) (plan : list PlanItem)
    : io nat :=
  match plan with
  | [] => mret 0
  | p :: rest =>
      ok ← apply_one delete_originals p;
      errors ← apply_plan delete_originals rest;
      mret (if ok : bool then errors else S errors)
  end.

Definition apply_main (delete_originals : bool) (plan : list PlanItem)
    : io unit :=
  errors ← apply_plan delete_originals plan;
  if bool_decide (errors = 0) then mret ()
  else raise (SystemExit "2").

(** The outcome of the search for the original of one variant. *)
Inductive MatchOutcome :=
| Found (path : str)
| Ambiguous (candidates : list str)
| NotFound.

Definition SUFFIX : str := ".plex-appletv.mp4".

(** [SXXEXX_PREFIX], the pattern
    [^(?P<show>.+) - S(?P<s>\d{2})E(?P<e>\d{1,3}) - ] *)
Definition SXXEXX_PREFIX : re :=
  seqs [ Bol; Grp "show" (plus true re_dot); lits " - S";
         Grp "s" (times 2 re_d); lit "E"; Grp "e" (between 1 3 re_d);
         lits " - " ].

(** The regular files below [root], as paths relative to [root], in the
    order of the walk (here: of the map). *)
Definition files_below (fs : fsys) (root : str) : list str :=
  omap (λ k, if isfile fs k then
               match strip_head (dir_prefix root) k with
               | Some ((_ :: _) as r) => Some r
               | _ => None
               end
             else None)
       (elements (dom fs)).

(** [os.path.join(rel, fn)] for the directory and name of a walked file:
    the relative directory of a file directly in [root] is the dot. *)
Definition walk_key (r : str) : str :=
  match rsplit "/" r with
  | Some _ => r
  | None => "./" ++ r
  end.

Definition walk_rel (r : str) : str :=
  match rsplit "/" r with
  | Some (d, _) => d
  | None => "."
  end.

Definition build_original_index (fs : fsys) (root variants_dir : str)
    : gmap str str :=
  foldl (λ out r,
           let rel := walk_rel r in
           if bool_decide (rel = variants_dir)
              || startswith rel (variants_dir ++ "/")
           then out
           else <[walk_key r := join root r]> out)
        ∅ (files_below fs root).

(** [by_base.setdefault(os.path.basename(relpath), []).append(relpath)]
    over the keys of the index *)
Definition build_by_base (keys : list str) : gmap str (list str) :=
  foldl (λ m relpath,
           <[basename relpath := default [] (m !! basename relpath)
                                   ++ [relpath]]> m)
        ∅ keys.

(** The files of [iter_files(root, under=variants_dir)], relative to
    [root]. *)
Definition iter_files (fs : fsys) (root under : str) : list str :=
  let base := join root under in
  if negb (isdir fs (canon base)) then []
  else filter (λ r, startswith r (dir_prefix under) = true)
              (files_below fs root).

(** The candidates of the structured step in the directory [dir_full]. *)
Definition prefix_candidates (fs : fsys) (dir_full prefix : str)
    : list str :=
  filter (λ fn : str, endswith fn ".mp4" = true ∧ endswith fn SUFFIX = false
                      ∧ startswith fn prefix = true)
         (listdir fs dir_full).

(** The relative path the original of the variant at [rel] is expected
    at. *)
Definition candidate_rel (variants_dir rel : str) : str :=
  let rel_inside := drop (length variants_dir + 1) rel in
  take (length rel_inside - length SUFFIX) rel_inside ++ ".mp4".

(** The directory the structured step looks into. *)
Definition dir_full (root variants_dir rel : str) : str :=
  join root (dirname (drop (length variants_dir + 1) rel)).

(** The f-string [{show} - S{s}E{e:02d} - ] *)
Definition expected_prefix (m : mstate) : str :=
  group "show" m ++ " - S" ++ group "s" m ++ "E"
    ++ pad2 (int_of_digits (group "e" m)) ++ " - ".

(** The structured step: the files of the directory with the prefix of the
    variant. *)
Definition structured_step (fs : fsys) (root variants_dir rel : str)
    : MatchOutcome :=
  let d := dir_full root variants_dir rel in
  match re_match SXXEXX_PREFIX (basename (join root rel)) with
  | Some m =>
      if isdir fs (canon d) then
        match prefix_candidates fs d (expected_prefix m) with
        | [] => NotFound
        | [c] => Found (join d c)
        | cands => Ambiguous cands
        end
      else NotFound
  | None => NotFound
  end.

Definition expected_base (root rel : str) : str :=
  let b := basename (join root rel) in
  take (length b - length SUFFIX) b ++ ".mp4".

(** The basename fallback. *)
Definition basename_step (root : str) (idx : gmap str str)
    (by_base : gmap str (list str)) (rel : str) : MatchOutcome :=
  match default [] (by_base !! expected_base root rel) with
  | [c] => match idx !! c with
           | Some original => Found original
           | None => NotFound
           end
  | _ => NotFound
  end.

(** The search of the loop of [plan_promotions] for the variant at [rel]
    (relative to [root]). *)
Definition find_original (fs : fsys) (root variants_dir : str)
    (allow_basename_fallback : bool)
    (idx : gmap str str) (by_base : gmap str (list str)) (rel : str)
    : MatchOutcome :=
  match idx !! candidate_rel variants_dir rel with
  | Some original => Found original
  | None =>
      match structured_step fs root variants_dir rel with
      | NotFound =>
          if allow_basename_fallback
          then basename_step root idx by_base rel else NotFound
      | outcome => outcome
      end
  end.

(** [os.path.relpath(path, root)] for a path below [root]. *)
Definition relpath (path root : str) : str :=
  default path (strip_head (dir_prefix root) path).

Record promotions := {
  plan : list PlanItem;
  problems : list (str * list str);
}.

Definition plan_promotions (fs : fsys) (root variants_dir backup_subdir : str)
    (allow_basename_fallback : bool) : promotions :=
  let idx := build_original_index fs root variants_dir in
  let by_base := build_by_base (elements (dom idx)) in
  foldl (λ acc rel,
           if negb (endswith rel SUFFIX) then acc else
           match find_original fs root variants_dir allow_basename_fallback
                   idx by_base rel with
           | Found original =>
               {| plan := plan acc ++
                    [ {| variant := join root rel; original := original;
                         backup_original :=
                           join_all root [ variants_dir; backup_subdir;
                                           relpath original root ] |} ];
                  problems := problems acc |}
           | Ambiguous cands =>
               {| plan := plan acc;
                  problems := problems acc ++
                    [ ("multiple originals match variant" : str,
                       join root rel :: cands) ] |}
           | NotFound =>
               {| plan := plan acc;
                  problems := problems acc ++
                    [ ("no matching original for variant" : str,
                       [join root rel]) ] |}
           end)
        {| plan := []; problems := [] |}
        (iter_files fs root variants_dir).

End promote.

(** ** Relations between worlds *)

Definition is_mkdir (c : syscall) : Prop :=
  match c with
  | SysMkdir _ => True
  | _ => False
  end.

(** [w'] differs from [w] by created directories only. *)
Record extends (w w' : world) : Prop := {
  ext_out : w_out w' = w_out w;
  ext_log : ∃ mk, w_log w' = w_log w ++ mk ∧ Forall is_mkdir mk;
  ext_keep : ∀ k x, w_fs w !! k = Some x → w_fs w' !! k = Some x;
  ext_new : ∀ k x, w_fs w' !! k = Some x → w_fs w !! k = Some x ∨ x = Dir;
}.

(** * tmp-scripts/reorg_plex_tv.py *)

Module reorg.

Record Entry := {
  category : option str;
  collection : option str;
  playlist_index : option nat;
  collection_index : option nat;
  cid : option str;
  permalink : option str;
}.

(** Truth value of an optional string: [None] and the empty string are
    false. *)
Definition truthy (o : option str) : bool :=
  match o with
  | Some (_ :: _) => true
  | _ => false
  end.

(** [x or ''] *)
Definition or_empty (o : option str) : str := default [] o.

Definition is_sep (c : ascii) : bool :=
  chr_eqb c "-" || chr_eqb c "_".

Definition permalink_to_base (permalink : str) : str :=
  let s := if endswith permalink "mp4"
           then take (length permalink - 3) permalink else permalink in
  strip_by is_sep s.

(** [re.split(r'[-_]+', base)] without the empty pieces. *)
Fixpoint split_sep (cur : str) (s : str) : list str :=
  match s with
  | [] => if bool_decide (cur = []) then [] else [reverse cur]
  | c :: t =>
      if is_sep c then
        (if bool_decide (cur = []) then [] else [reverse cur])
          ++ split_sep [] t
      else split_sep (c :: cur) t
  end.

Definition is_hex (c : ascii) : bool :=
  is_digit c ||
  (let n := nat_of_ascii c in (97 <=? n) && (n <=? 102)).

Definition is_upper_chr (c : ascii) : bool :=
  let n := nat_of_ascii c in
  ((65 <=? n) && (n <=? 90))
  || ((192 <=? n) && (n <=? 222) && negb (n =? 215)).

Definition is_lower_chr (c : ascii) : bool :=
  let n := nat_of_ascii c in
  ((97 <=? n) && (n <=? 122))
  || ((223 <=? n) && (n <=? 255) && negb (n =? 247))
  || (n =? 170) || (n =? 181) || (n =? 186).

(** [str.isupper] *)
Definition isupper (s : str) : bool :=
  existsb is_upper_chr s && negb (existsb is_lower_chr s).

(** [str.upper] on one character.  The capitals of the characters 181,
    223 and 255 lie outside the alphabet of the model, which keeps
    them. *)
Definition upper (c : ascii) : ascii :=
  let n := nat_of_ascii c in
  if ((97 <=? n) && (n <=? 122))
     || ((224 <=? n) && (n <=? 254) && negb (n =? 247))
  then ascii_of_nat (n - 32) else c.

(** The tokens [title_from_permalink] drops. *)
Definition is_noise (p : str) : bool :=
  let lp := str_lower p in
  ((5 <=? length lp) && forallb is_hex lp)
  || bool_decide (lp = ("mov" : str)) || bool_decide (lp = ("mp4" : str))
  || (let ds := take_while is_digit lp in
      let rest := drop (length ds) lp in
      negb (bool_decide (ds = [])) &&
      (bool_decide (rest = ("mov" : str))
       || match rest with
          | c :: tl => chr_eqb c "p" && forallb is_word tl
          | [] => false
          end)).

Definition title_from_permalink (permalink : str) : str :=
  let parts := split_sep [] (permalink_to_base permalink) in
  let cleaned := filter (λ p, is_noise p = false) parts in
  let cleaned := if bool_decide (cleaned = []) then parts else cleaned in
  let cap (p : str) : str :=
    if isupper p && (length p <=? 4) then p
    else match p with
         | c :: t => upper c :: t
         | [] => []
         end in
  match map cap cleaned with
  | [] => []
  | w :: ws => w ++ concat (map (λ x, " " ++ x) ws)
  end.

Definition choose_collection_dir (existing_dirs : list str)
    (collection : str) : option str :=
  if bool_decide (collection ∈ existing_dirs) then Some collection else
  let cands := [ replace_chr "/" "-" collection;
                 replace_chr "/" " " collection;
                 replace_chr "/" "" collection ] in
  match list_find (λ c, c ∈ existing_dirs) cands with
  | Some (_, c) => Some c
  | None =>
      let low : gmap str str :=
        foldl (λ m d, <[str_lower d := d]> m) ∅ existing_dirs in
      match low !! str_lower collection with
      | Some d => Some d
      | None =>
          match list_find (λ c, is_Some (low !! str_lower c)) cands with
          | Some (_, c) => low !! str_lower c
          | None => None
          end
      end
  end.

Definition find_source_file (fs : fsys) (root collection_dir permalink : str)
    (prefer_non_variants : bool) : option str :=
  let base := permalink_to_base permalink in
  let dpath := join root collection_dir in
  let direct := join dpath (base ++ ".mp4") in
  if path_exists fs direct then
    if prefer_non_variants && contains (basename direct) ".plex-appletv"
    then None else Some direct
  else if negb (isdir fs dpath) then None
  else
    match
      list_find (λ fn : str,
        endswith fn ".mp4" = true ∧ startswith fn base = true ∧
        (prefer_non_variants && contains fn ".plex-appletv") = false)
        (listdir fs dpath)
    with
    | Some (_, fn) => Some (join dpath fn)
    | None => None
    end.

(** Season order by first appearance. *)
Definition season_order (entries : list Entry) : list str :=
  foldl (λ acc e,
           match collection e with
           | Some ((_ :: _) as c) =>
               if bool_decide (c ∈ acc) then acc else acc ++ [c]
           | _ => acc
           end) [] entries.

(** [season_num[c]] *)
Definition season_num (order : list str) (c : str) : nat :=
  match list_find (λ x, x = c) order with
  | Some (i, _) => S i
  | None => 0
  end.

Definition season_dir_of (order : list str) (e : Entry) : str :=
  safe_component
    ("Season " ++ pad2 (season_num order (or_empty (collection e)))
       ++ " - " ++ or_empty (collection e)).

Definition file_name_of (order : list str) (show : str) (e : Entry)
    (decoration : str) : str :=
  safe_component
    (show ++ " - S" ++ pad2 (season_num order (or_empty (collection e)))
       ++ "E" ++ pad2 (default 0 (collection_index e))
       ++ " - " ++ title_from_permalink (or_empty (permalink e))
       ++ decoration ++ ".mp4").

Definition dst_of (root show : str) (order : list str) (e : Entry)
    (decoration : str) : str :=
  join_all root [ ("TV Shows" : str); show; season_dir_of order e;
                  file_name_of order show e decoration ].

(** The state of the planning loop of [main]. *)
Record planning := {
  planned : list (Entry * str * str);
  missing : list (Entry * str);
  dup_permalink : list (Entry * str);
  seen_coll_permalink : gset (str * str);
  (** the calls of [find_source_file] made so far *)
  queried : list Entry;
}.

Definition planning_start : planning :=
  {| planned := []; missing := []; dup_permalink := [];
     seen_coll_permalink := ∅; queried := [] |}.

Definition add_missing (st : planning) (e : Entry) (why : str) : planning :=
  {| planned := planned st; missing := missing st ++ [(e, why)];
     dup_permalink := dup_permalink st;
     seen_coll_permalink := seen_coll_permalink st;
     queried := queried st |}.

Definition plan_step (fs : fsys) (root show : str) (dirs : list str)
    (order : list str) (st : planning) (e : Entry) : planning :=
  if negb (truthy (collection e)) || negb (truthy (permalink e)) then
    add_missing st e "missing_collection_or_permalink"
  else
    let key := (or_empty (collection e), or_empty (permalink e)) in
    if bool_decide (key ∈ seen_coll_permalink st) then
      {| planned := planned st; missing := missing st;
         dup_permalink :=
           dup_permalink st ++ [(e, "duplicate_collection_permalink" : str)];
         seen_coll_permalink := seen_coll_permalink st;
         queried := queried st |}
    else
      let st := {| planned := planned st; missing := missing st;
                   dup_permalink := dup_permalink st;
                   seen_coll_permalink := {[ key ]} ∪ seen_coll_permalink st;
                   queried := queried st |} in
      match choose_collection_dir dirs key.1 with
      | None => add_missing st e "missing_collection_dir"
      | Some cdir =>
          let st := {| planned := planned st; missing := missing st;
                       dup_permalink := dup_permalink st;
                       seen_coll_permalink := seen_coll_permalink st;
                       queried := queried st ++ [e] |} in
          match find_source_file fs root cdir key.2 true with
          | None => add_missing st e "missing_src"
          | Some src =>
              {| planned :=
                   planned st ++ [(e, src, dst_of root show order e [])];
                 missing := missing st;
                 dup_permalink := dup_permalink st;
                 seen_coll_permalink := seen_coll_permalink st;
                 queried := queried st |}
          end
      end.

Definition existing_dirs (fs : fsys) (root : str) : list str :=
  filter (λ d, isdir fs (join root d) = true) (listdir fs root).

Definition plan_entries (fs : fsys) (root show : str)
    (entries : list Entry) : planning :=
  foldl (plan_step fs root show (existing_dirs fs root)
           (season_order entries))
        planning_start entries.

(** [Counter(dst for _, _, dst in planned)] *)
Definition dst_counts (pl : list (Entry * str * str)) : gmap str nat :=
  foldl (λ m '(_, _, dst), <[dst := S (default 0 (m !! dst))]> m) ∅ pl.

Definition conflicts (pl : list (Entry * str * str)) : list str :=
  (map_to_list (filter (λ '(_, n), 1 < n) (dst_counts pl))).*1.

(** [record(action, e, src, dst, note)] *)
Definition record (action : str) (e : Entry) (src dst note : str)
    : io unit :=
  emit (Line action
          [ or_empty (collection e);
            match collection_index e with
            | Some (S _ as n) => str_of_nat n
            | _ => []
            end;
            or_empty (cid e); or_empty (permalink e); src; dst; note ]).

Definition safe_rename (src dst : str) : io unit :=
  ensure_parent dst;; os_rename src dst.

Definition is_FileNotFoundError (e : exn) : bool :=
  match e with
  | FileNotFoundError _ => true
  | _ => false
  end.

(** [except OSError]: every operating-system error. *)
Definition is_OSError (e : exn) : bool := is_Exception e.

(** The body of the loop [for e, src, dst in planned]. *)
Definition apply_one (root show : str) (order : list str) (apply : bool)
    (op : Entry * str * str) : io unit :=
  let '(e, src, dst) := op in
  s ← os_path_exists src;
  if negb s then
    d ← os_path_exists dst;
    if d : bool then record "DONE" e src dst "src missing, dst exists"
    else record "MISSING" e src dst "src missing at apply time"
  else
    d ← os_path_exists dst;
    let alt :=
      dst_of root show order e
        (" (cid " ++ (if truthy (cid e) then or_empty (cid e)
                      else "unknown") ++ ")") in
    a ← (if d : bool then os_path_exists alt else mret false);
    if d && a then record "SKIP" e src dst "dst exists (and alt exists)"
    else
      let dst := if d : bool then alt else dst in
      if apply then
        try_except
          (safe_rename src dst;; record "MOVE" e src dst "")
          is_OSError
          (λ ex, if is_FileNotFoundError ex
                 then record "MISSING" e src dst ""
                 else record "ERROR" e src dst "")
      else record "PLAN" e src dst "".

Fixpoint apply_planned (root show : str) (order : list str) (apply : bool)
    (pl : list (Entry * str * str)) : io unit :=
  match pl with
  | [] => mret ()
  | op :: rest =>
      apply_one root show order apply op;;
      apply_planned root show order apply rest
  end.

Fixpoint record_all (action : str) (l : list (Entry * str)) : io unit :=
  match l with
  | [] => mret ()
  | (e, why) :: rest =>
      record action e "" "" why;; record_all action rest
  end.

(** [main] up to the end of the apply loop; the optional moves of
    variants and deletions of partial downloads follow it. *)
Definition main (root show : str) (entries : list Entry) (apply : bool)
    : io (list (Entry * str * str)) := λ w,
  let st := plan_entries (w_fs w) root show entries in
  (if bool_decide (conflicts (planned st) ≠ [])
   then raise (SystemExit "refusing to proceed")
   else
     record_all "MISSING" (missing st);;
     record_all "SKIP" (dup_permalink st);;
     apply_planned root show (season_order entries) apply (planned st);;
     mret (planned st)) w.

End reorg.

(** ** Manifest entries with the same collection and permalink *)





(** The number of operations of a plan that target [d]. *)
Definition occurrences (d : str) (l : list str) : nat :=
  length (filter (λ x, x = d) l).


(** ** Outcomes of an apply loop *)

(** The line [l] reports the promotion of [p]. *)
Definition promote_outcome (p : promote.PlanItem) (l : line) : Prop :=
  l = Line "DONE" [promote.original p] ∨ l = Line "ERROR" [promote.variant p].


(** * tmp-scripts/jtswing_single_show.py *)

Module jtswing.

Definition PREFERRED_ORDER : list str :=
  [ ("Beginner" : str); ("Intermediate" : str); ("Advanced All-Star" : str);
    ("Drills" : str); ("Footwork" : str); ("Connection" : str);
    ("Musicality" : str); ("Concepts" : str); ("Old School Moves" : str) ].

(** [EP_RE], the pattern
    [^(?P<prefix>.+?) - S(?P<s>\d{2})E(?P<e>\d+) - (?P<title>.+?)\.mp4$] *)
Definition EP_RE : re :=
  seqs [ Bol; Grp "prefix" (plus false re_dot); lits " - S";
         Grp "s" (times 2 re_d); lit "E"; Grp "e" (plus true re_d);
         lits " - "; Grp "title" (plus false re_dot); lits ".mp4"; Eol ].

(** The directories [JT <category>] of the root, in sorted order. *)
Definition cat_dirs (fs : fsys) (root : str) : list (str * str) :=
  omap (λ name,
          let p := join root name in
          if isdir fs p && startswith name "JT "
          then Some (strip (drop 3 name), p) else None)
       (sorted (listdir fs root)).

Definition season_order (cats : list str) : list str :=
  let step (acc : list str) (c : str) (ok : bool) :=
    if ok && negb (bool_decide (c ∈ acc)) then acc ++ [c] else acc in
  let first :=
    foldl (λ acc c, step acc c (bool_decide (c ∈ cats))) []
          PREFERRED_ORDER in
  foldl (λ acc c, step acc c true) first (sorted cats).

Definition season_num (order : list str) (c : str) : nat :=
  match list_find (λ x, x = c) order with
  | Some (i, _) => S i
  | None => 0
  end.

(** The f-string [{ep:02d}] below 100 and [str(ep)] from there on. *)
Definition ep_tag (ep : nat) : str :=
  if ep <? 100 then pad2 ep else str_of_nat ep.

Record plan := {
  planned : list (str * str);
  skipped : list str;
}.

(** The body of the loop over the files of one category. *)
Definition plan_file (fs : fsys) (root show : str) (order : list str)
    (cat cdir : str) (acc : plan) (fn : str) : result plan :=
  if negb (endswith fn ".mp4") then Ok acc else
  match re_match EP_RE fn with
  | None =>
      Ok {| planned := planned acc;
            skipped := skipped acc ++ [join cdir fn] |}
  | Some m =>
      let ep := int_of_digits (group "e" m) in
      let title := strip (group "title" m) in
      let s := season_num order cat in
      let season_dir := safe_component ("Season " ++ pad2 s ++ " - " ++ cat) in
      let new_fn :=
        safe_component (show ++ " - S" ++ pad2 s ++ "E" ++ ep_tag ep
                          ++ " - " ++ title ++ ".mp4") in
      match unique_path fs (join_all root [show; season_dir; new_fn]) with
      | Some dst =>
          Ok {| planned := planned acc ++ [(join cdir fn, dst)];
                skipped := skipped acc |}
      | None => Raise Diverges
      end
  end.

Fixpoint plan_files (fs : fsys) (root show : str) (order : list str)
    (cat cdir : str) (acc : plan) (fns : list str) : result plan :=
  match fns with
  | [] => Ok acc
  | fn :: rest =>
      acc' ← plan_file fs root show order cat cdir acc fn;
      plan_files fs root show order cat cdir acc' rest
  end.

Fixpoint plan_dirs (fs : fsys) (root show : str) (order : list str)
    (acc : plan) (dirs : list (str * str)) : result plan :=
  match dirs with
  | [] => Ok acc
  | (cat, cdir) :: rest =>
      acc' ← plan_files fs root show order cat cdir acc
               (sorted (listdir fs cdir));
      plan_dirs fs root show order acc' rest
  end.

(** The plan of [main] for the file system [fs]. *)
Definition plan_moves (fs : fsys) (root show : str) : result plan :=
  let dirs := cat_dirs fs root in
  plan_dirs fs root show (season_order dirs.*1)
            {| planned := []; skipped := [] |} dirs.

(** The apply loop of [main]: no operation is guarded. *)
Fixpoint apply_moves (pl : list (str * str)) : io unit :=
  match pl with
  | [] => mret ()
  | (src, dst) :: rest =>
      makedirs (dirname dst);;
      os_rename src dst;;
      emit (Line "MOVE" [src; dst]);;
      apply_moves rest
  end.

Fixpoint remove_empty (dirs : list (str * str)) : io unit :=
  match dirs with
  | [] => mret ()
  | (_, cdir) :: rest =>
      try_except
        (λ w, if bool_decide (listdir (w_fs w) cdir = [])
              then os_rmdir cdir w else (w, Ok ()))
        reorg.is_OSError (λ _, mret ());;
      remove_empty rest
  end.

Definition main (root show_arg report : str) (apply : bool)
    : io (list (str * str)) := λ w,
  let show := safe_component show_arg in
  match plan_moves (w_fs w) root show with
  | Raise e => (w, Raise e)
  | Ok p =>
      if negb apply then (w, Ok (planned p))
      else
        (makedirs (join root show);;
         write_file (join root report);;
         emit (Line "action" [ ("src" : str); ("dst" : str) ]);;
         apply_moves (planned p);;
         remove_empty (cat_dirs (w_fs w) root);;
         mret (planned p)) w
  end.

End jtswing.


(** * Patterns and helpers shared by several scripts *)

(** [BRACKET_ID_RE], the pattern [\s*\[[0-9]+\]\s*$] *)
Definition BRACKET_ID_RE : re :=
  seqs [ Star true re_s; lit "["; plus true (Chr is_digit); lit "]";
         Star true re_s; Eol ].

(** [CID_RE] and [CID_SUFFIX_RE], the pattern [\s*\(cid\s+[^)]+\)\s*$]
    under [re.IGNORECASE] *)
Definition CID_SUFFIX_RE : re :=
  seqs [ Star true re_s; lit "("; lits_i "cid"; plus true re_s;
         plus true (Chr (λ c, negb (chr_eqb c ")"))); lit ")";
         Star true re_s; Eol ].

(** [DUP_RE] and [DUP_SUFFIX_RE], the pattern [\s*\(\d+\)\s*$] *)
Definition DUP_SUFFIX_RE : re :=
  seqs [ Star true re_s; lit "("; plus true re_d; lit ")";
         Star true re_s; Eol ].

(** [LEADING_EP_RE] and [LEADING_NUM_RE], the pattern
    [^(\d{1,4})\s*[-_. ]\s*(.+)$] with the groups named [n] and [rest] *)
Definition LEADING_NUM_RE : re :=
  seqs [ Bol; Grp "n" (between 1 4 re_d); Star true re_s;
         Chr (λ c, bool_decide (c ∈ ("-_. " : str))); Star true re_s;
         Grp "rest" (plus true re_dot); Eol ].

Definition VIDEO_EXTS : list str :=
  [ (".mp4" : str); (".mkv" : str); (".mov" : str); (".m4v" : str) ].

Definition is_video (path : str) : bool :=
  bool_decide (str_lower (splitext path).2 ∈ VIDEO_EXTS).

(** The f-string [{ep:02d}] below 100 and [str(ep)] from there on. *)
Definition ep_tag (ep : nat) : str :=
  if ep <? 100 then pad2 ep else str_of_nat ep.

(** The episode numbers of one season, as organize_uscreen_tree_as_show.py
    and organize_dance_tvshows.py give them: [extracted] holds the number
    read from each file name, [seq] is the next sequential number. *)
Fixpoint number_go (have_any : bool) (seq : nat)
    (extracted : list (option nat)) : list nat :=
  match extracted with
  | [] => []
  | x :: t =>
      match (if have_any then x else None) with
      | Some ep => ep :: number_go have_any seq t
      | None => seq :: number_go have_any (S seq) t
      end
  end.

Definition episode_numbers (extracted : list (option nat)) : list nat :=
  number_go (existsb (λ e : option nat, bool_decide (is_Some e)) extracted)
            1 extracted.

Inductive mode := hardlink | copy | move.

(** [link_copy_move] and [hardlink_or_copy] *)
Definition link_copy_move (src dst : str) (m : mode) : io unit :=
  makedirs (dirname dst);;
  match m with
  | hardlink => os_link src dst
  | copy => shutil_copy2 src dst
  | move => os_rename src dst
  end.

(** The video files directly inside [d], in sorted order of their paths. *)
Definition videos_in (fs : fsys) (d : str) : list str :=
  sorted (filter (λ p, isfile fs p && is_video p = true)
                 (join d <$> listdir fs d)).

(** * tmp-scripts/organize_uscreen_tree_as_show.py *)

Module uscreen.

Record Season := {
  category : str;
  collection : str;
  dir_path : str;
}.

Definition list_leaf_seasons (fs : fsys) (src_root : str) : list Season :=
  cat ← sorted (listdir fs src_root);
  let cat_path := join src_root cat in
  if negb (isdir fs cat_path) then [] else
  coll ← sorted (listdir fs cat_path);
  let coll_path := join cat_path coll in
  if negb (isdir fs coll_path) then [] else
  if bool_decide (videos_in fs coll_path = []) then []
  else [ {| category := cat; collection := coll; dir_path := coll_path |} ].

Definition parse_ep (base : str) : option nat :=
  match re_match LEADING_NUM_RE base with
  | Some m => Some (int_of_digits (group "n" m))
  | None => None
  end.

Definition title_from_filename (base : str) : str :=
  let name := (splitext base).1 in
  let name := re_sub BRACKET_ID_RE "" None name in
  let name := match re_match LEADING_NUM_RE name with
              | Some m => group "rest" m
              | None => name
              end in
  let name := strip_chars " -_." name in
  let name := replace_chr "_" " " name in
  let name := ws_collapse name in
  if bool_decide (name = []) then base else name.

(** The destination name of one file. *)
Definition dst_name (show : str) (sidx ep : nat) (base : str) : str :=
  safe_component
    (show ++ " - S" ++ pad2 sidx ++ "E" ++ ep_tag ep ++ " - "
       ++ safe_component (title_from_filename base) ++ (splitext base).2).

(** The loop over the files of one season; [main] pairs each file with its
    episode number. *)
Fixpoint do_files (show season_dir : str) (sidx : nat) (m : mode)
    (apply : bool) (files : list (str * nat)) : io (list (str * str)) :=
  match files with
  | [] => mret []
  | (src, ep) :: rest =>
      let base := basename src in
      dst ← (λ w, match unique_path (w_fs w)
                          (join season_dir (dst_name show sidx ep base)) with
                  | Some d => (w, Ok d)
                  | None => (w, Raise Diverges)
                  end);
      (if apply then
         link_copy_move src dst m;;
         emit (Line "LINK" [pad2 sidx; src; dst])
       else emit (Line "PLAN" [pad2 sidx; src; dst]));;
      ops ← do_files show season_dir sidx m apply rest;
      mret ((src, dst) :: ops)
  end.

Fixpoint do_seasons (dst_root show : str) (m : mode) (apply : bool)
    (sidx : nat) (seasons : list Season) : io (list (str * str)) :=
  match seasons with
  | [] => mret []
  | season :: rest =>
      let season_name :=
        safe_component ("Season " ++ pad2 sidx ++ " - " ++ category season
                          ++ " - " ++ collection season) in
      let season_dir := join_all dst_root [show; season_name] in
      files ← (λ w, (w, Ok (videos_in (w_fs w) (dir_path season))));
      let extracted := (λ f, parse_ep (basename f)) <$> files in
      ops ← do_files show season_dir sidx m apply
              (zip files (episode_numbers extracted));
      ops' ← do_seasons dst_root show m apply (S sidx) rest;
      mret (ops ++ ops')
  end.

(** [main]: returns the operations of the run, in order. *)
Definition main (src_root dst_root show_arg : str) (m : mode) (apply : bool)
    (report : str) : io (list (str * str)) :=
  let show := safe_component show_arg in
  seasons ← (λ w, (w, Ok (list_leaf_seasons (w_fs w) src_root)));
  ops ← do_seasons dst_root show m apply 1 seasons;
  (if apply then
     makedirs dst_root;; write_file (join dst_root report)
   else mret ());;
  mret ops.

End uscreen.

(** * tmp-scripts/organize_dance_tvshows.py *)

Module dance.

(** [SXXEXX_RE], the pattern [S(?P<s>\d{1,2})E(?P<e>\d{1,4})] under
    [re.IGNORECASE] *)
Definition SXXEXX_RE : re :=
  seqs [ lit_i "S"; Grp "s" (between 1 2 re_d); lit_i "E";
         Grp "e" (between 1 4 re_d) ].

Definition parse_episode_number_from_filename (base : str) : option nat :=
  match re_search SXXEXX_RE base with
  | Some m => Some (int_of_digits (group "e" m))
  | None =>
      match re_match LEADING_NUM_RE base with
      | Some m => Some (int_of_digits (group "n" m))
      | None => None
      end
  end.

(** The pattern [^.*?\bS\d{1,2}E\d{1,4}\b\s*[-_. ]\s*] under
    [re.IGNORECASE] *)
Definition SXXEXX_HEAD_RE : re :=
  seqs [ Bol; Star false re_dot; WordB; lit_i "S"; between 1 2 re_d;
         lit_i "E"; between 1 4 re_d; WordB; Star true re_s;
         Chr (λ c, bool_decide (c ∈ ("-_. " : str))); Star true re_s ].

Definition title_from_filename (base show_name : str) : str :=
  let name := (splitext base).1 in
  let name := re_sub BRACKET_ID_RE "" None name in
  let name := re_sub CID_SUFFIX_RE "" None name in
  let name := re_sub DUP_SUFFIX_RE "" None name in
  let name :=
    if startswith (str_lower name) (str_lower show_name ++ " - ")
    then drop (length show_name + 3) name else name in
  let name := re_sub SXXEXX_HEAD_RE "" None name in
  let name := match re_match LEADING_NUM_RE name with
              | Some m => group "rest" m
              | None => name
              end in
  let name := strip_chars " -_." (replace_chr "_" " " name) in
  let name := ws_collapse name in
  if bool_decide (name = []) then base else name.

Record ShowGroup := {
  name : str;
  files : list str;
}.

(** [list_videos_recursive]: the video files below [d] at any depth, in
    sorted order of their paths. *)
Definition list_videos_recursive (fs : fsys) (d : str) : list str :=
  sorted (filter (λ p, isfile fs p && is_video p = true
                       ∧ is_Some (strip_head (dir_prefix d) p))
                 (elements (dom fs))).

Definition build_groups (fs : fsys) (source_root dest_root : str)
    : list ShowGroup :=
  nm ← sorted (listdir fs source_root);
  if bool_decide (nm = basename dest_root) || bool_decide (nm = ("_variants" : str))
     || startswith nm "."
  then [] else
  let p := join source_root nm in
  if negb (isdir fs p) then [] else
  let direct := videos_in fs p in
  let sub_with_videos :=
    omap (λ d, let sd := join p d in
               if isdir fs sd then
                 match list_videos_recursive fs sd with
                 | [] => None
                 | vids => Some (sd, vids)
                 end
               else None)
         (sorted (listdir fs p)) in
  let subs :=
    (λ '(sd, vids), {| name := nm ++ " - " ++ basename sd; files := vids |})
      <$> sub_with_videos in
  match direct, sub_with_videos with
  | _ :: _, _ :: _ => {| name := nm ++ " - Misc"; files := direct |} :: subs
  | [], _ :: _ => subs
  | _ :: _, [] => [ {| name := nm; files := direct |} ]
  | [], [] => []
  end.

Definition dst_name (show : str) (ep : nat) (base : str) : str :=
  safe_component
    (show ++ " - S01E" ++ ep_tag ep ++ " - "
       ++ safe_component (title_from_filename base show)
       ++ (splitext base).2).

Fixpoint do_files (show season_dir : str) (m : mode) (apply : bool)
    (fl : list (str * nat)) : io (list (str * str)) :=
  match fl with
  | [] => mret []
  | (src, ep) :: rest =>
      let base := basename src in
      dst ← (λ w, match unique_path (w_fs w)
                          (join season_dir (dst_name show ep base)) with
                  | Some d => (w, Ok d)
                  | None => (w, Raise Diverges)
                  end);
      (if apply then
         link_copy_move src dst m;;
         emit (Line "LINK" [show; src; dst])
       else emit (Line "PLAN" [show; src; dst]));;
      ops ← do_files show season_dir m apply rest;
      mret ((src, dst) :: ops)
  end.

(** The loop of [main] over the groups. *)
Fixpoint do_groups (dest_root : str) (m : mode) (apply : bool)
    (groups : list ShowGroup) : io (list (str * str)) :=
  match groups with
  | [] => mret []
  | g :: rest =>
      let show := safe_component (name g) in
      let season_dir := join_all dest_root [show; ("Season 01" : str)] in
      let extracted :=
        (λ f, parse_episode_number_from_filename (basename f)) <$> files g in
      ops ← do_files show season_dir m apply
              (zip (files g) (episode_numbers extracted));
      ops' ← do_groups dest_root m apply rest;
      mret (ops ++ ops')
  end.

(** [main]: returns the operations of the run, in order. *)
Definition main (source_root dest_root : str) (m : mode) (apply : bool)
    (report : str) : io (list (str * str)) :=
  groups ← (λ w, (w, Ok (build_groups (w_fs w) source_root dest_root)));
  ops ← do_groups dest_root m apply groups;
  (if apply then
     makedirs dest_root;; write_file (join dest_root report)
   else mret ());;
  mret ops.

End dance.

(** * scripts/garysusan_rename_episode_files.py *)

Module garysusan.

(** [SEASON_DIR_RE], the pattern
    [^Season\s+(?P<n>\d{2})\s+-\s+(?P<cat>.+?)\s+-\s+(?P<coll>.+)$] *)
Definition SEASON_DIR_RE : re :=
  seqs [ Bol; lits "Season"; plus true re_s; Grp "n" (times 2 re_d);
         plus true re_s; lit "-"; plus true re_s;
         Grp "cat" (plus false re_dot); plus true re_s; lit "-";
         plus true re_s; Grp "coll" (plus true re_dot); Eol ].

(** [EP_FILE_RE], the pattern
    [^(?P<show>GarySusan) - S(?P<s>\d{2})E(?P<e>\d+) - (?P<title>.+)\.mp4$] *)
Definition EP_FILE_RE : re :=
  seqs [ Bol; Grp "show" (lits "GarySusan"); lits " - S";
         Grp "s" (times 2 re_d); lit "E"; Grp "e" (plus true re_d);
         lits " - "; Grp "title" (plus true re_dot); lits ".mp4"; Eol ].

(** The pattern [\bVolume\s+] under [re.IGNORECASE] *)
Definition VOLUME_RE : re :=
  seqs [ WordB; lits_i "Volume"; plus true re_s ].

(** [candidate_prefixes]: Python builds the list from a set, in an order it
    leaves open; here the candidates come in the order the code adds
    them. *)
Definition candidate_prefixes (collection : str) : list str :=
  let c := strip collection in
  let out := [ c; strip (re_sub VOLUME_RE "" None c);
               replace_str " and " " & " c; replace_str " & " " and " c ] in
  filter (λ s, s ≠ []) (distinct (ws_collapse <$> out)).

(** The pattern of [strip_prefix] for the prefix [p]: [^], the escaped
    prefix, [\s*(?:-|:|<full-width colon>)\s*], under [re.IGNORECASE].  The
    full-width colon is no character of the model. *)
Definition prefix_re (p : str) : re :=
  seqs [ Bol; lits_i p; Star true re_s; Alt (lit "-") (lit ":");
         Star true re_s ].

Fixpoint strip_prefix (title : str) (prefixes : list str) : str :=
  match prefixes with
  | [] => strip title
  | p :: rest =>
      match re_search (prefix_re p) title with
      | Some _ => strip (re_sub (prefix_re p) "" (Some 1) title)
      | None => strip_prefix title rest
      end
  end.

(** The title of [main] after the removal of the bracket id. *)
Definition bracket_stripped (raw : str) : str :=
  strip (re_sub BRACKET_ID_RE "" None raw).

(** The normalized title of [main]. *)
Definition normalize (prefixes : list str) (raw : str) : str :=
  ws_collapse (strip_prefix (bracket_stripped raw) prefixes).

(** The body of the loop over the files of a season: the new file name, when
    a rename is planned. *)
Definition planned_rename (prefixes : list str) (fn : str) : option str :=
  if negb (endswith fn ".mp4") then None else
  match re_match EP_FILE_RE fn with
  | None => None
  | Some fm =>
      let title := bracket_stripped (group "title" fm) in
      let new_title := ws_collapse (strip_prefix title prefixes) in
      if bool_decide (new_title = title) then None
      else Some ("GarySusan - S" ++ group "s" fm ++ "E" ++ group "e" fm
                   ++ " - " ++ new_title ++ ".mp4")
  end.

Fixpoint do_files (s_path : str) (prefixes : list str) (apply : bool)
    (fns : list str) : io (list (str * str)) :=
  match fns with
  | [] => mret []
  | fn :: rest =>
      match planned_rename prefixes fn with
      | None => do_files s_path prefixes apply rest
      | Some new_fn =>
          let src := join s_path fn in
          dst ← (λ w, match unique_path (w_fs w) (join s_path new_fn) with
                      | Some d => (w, Ok d)
                      | None => (w, Raise Diverges)
                      end);
          (if apply then os_rename src dst else mret ());;
          ops ← do_files s_path prefixes apply rest;
          mret ((src, dst) :: ops)
      end
  end.

Fixpoint do_seasons (root : str) (apply : bool) (dirs : list str)
    : io (list (str * str)) :=
  match dirs with
  | [] => mret []
  | season_dir :: rest =>
      let s_path := join root season_dir in
      d ← (λ w, (w, Ok (isdir (w_fs w) s_path)));
      ops ←
        (if d : bool then
           match re_match SEASON_DIR_RE season_dir with
           | None => mret []
           | Some m =>
               fns ← (λ w, (w, Ok (sorted (listdir (w_fs w) s_path))));
               do_files s_path (candidate_prefixes (group "coll" m)) apply fns
           end
         else mret []);
      ops' ← do_seasons root apply rest;
      mret (ops ++ ops')
  end.

(** [main]: returns the planned renames. *)
Definition main (root : str) (apply : bool) : io (list (str * str)) :=
  dirs ← (λ w, (w, Ok (sorted (listdir (w_fs w) root))));
  do_seasons root apply dirs.

End garysusan.

(** * scripts/plex_title_from_filename.py *)

Module plextitle.

(** [TITLE_FROM_BASENAME_RE], the patterns
    [^.+? - S\d{2}E\d+ - (?P<title>.+?)\.[^.]+$] and
    [^S\d{2}E\d+ - (?P<title>.+?)\.[^.]+$] under [re.IGNORECASE] *)
Definition TITLE_FROM_BASENAME_RE : list re :=
  let tail :=
    [ times 2 re_d; lit_i "E"; plus true re_d; lits " - ";
      Grp "title" (plus false re_dot); lit ".";
      plus true (Chr (λ c, negb (chr_eqb c "."))); Eol ] in
  [ seqs ([Bol; plus false re_dot; lits " - "; lit_i "S"] ++ tail);
    seqs ([Bol; lit_i "S"] ++ tail) ].

(** The four steps applied to the title, or to the whole name. *)
Definition normalize (t : str) : str :=
  let t := re_sub BRACKET_ID_RE "" None t in
  let t := re_sub CID_SUFFIX_RE "" None t in
  let t := re_sub DUP_SUFFIX_RE "" None t in
  ws_collapse t.

(** [t or None] *)
Definition nonempty (t : str) : option str :=
  if bool_decide (t = []) then None else Some t.

Definition title_from_file_path (fp : str) : option str :=
  let base := basename fp in
  match list_find (λ rx, is_Some (re_match rx base)) TITLE_FROM_BASENAME_RE with
  | Some (_, rx) =>
      match re_match rx base with
      | Some m => nonempty (normalize (group "title" m))
      | None => None
      end
  | None => nonempty (normalize (splitext base).1)
  end.

End plextitle.

(** ** Episode numbering of one season

    What the claim about the numbering says of the files [listing] of one
    season, for the reader [parse] of the ordinal in a file name. *)
Definition numbering_spec (parse : str → option nat) (listing : list str)
    : Prop :=
  let files := sorted listing in
  let numbers :=
    episode_numbers ((λ f, parse (basename f)) <$> files) in
  length numbers = length files ∧
  (∀ i f n, files !! i = Some f → parse (basename f) = Some n →
            numbers !! i = Some n) ∧
  (∀ i f, files !! i = Some f → parse (basename f) = None →
     numbers !! i
       = Some (1 + length (filter (λ g, parse (basename g) = None)
                                  (take i files)))) ∧
  (∀ listing', listing' ≡ₚ listing → sorted listing' = files).

(** ** Collapsed white space

    [tidy prev_ws s]: every white-space character of [s] is a single space
    with no white space before it ([prev_ws] tells whether white space
    precedes [s]). *)
Fixpoint tidy (prev_ws : bool) (s : str) : bool :=
  match s with
  | [] => true
  | c :: t =>
      if is_space c then negb prev_ws && chr_eqb c " " && tidy true t
      else tidy false t
  end.

(** ** The search for the original of a variant

    The keys of the index whose bare file name is the one expected for the
    variant at [rel]. *)
Definition occurrences_in_index (idx : gmap str str) (root rel : str)
    : list str :=
  filter (λ k, basename k = promote.expected_base root rel)
         (elements (dom idx)).

(** ** Running the pipeline twice *)

(** A name of a directory entry: not empty, no slash. *)
Definition entry (n : str) : Prop := n ≠ [] ∧ "/"%char ∉ n.

(** The places of the files the scan of organize_uscreen_tree_as_show.py
    reads: [src_root/<category>/<collection>/<file>]. *)
Definition leaf (src_root : str) (p : str) : Prop :=
  ∃ cat coll fn, entry cat ∧ entry coll ∧ entry fn ∧
    p = join (join (join src_root cat) coll) fn.

(** In the source tree a file has its directories. *)
Definition src_well_formed (fs : fsys) (src_root : str) : Prop :=
  ∀ cat coll fn, entry cat → entry coll → entry fn →
    isfile fs (join (join (join src_root cat) coll) fn) = true →
    isdir fs (join src_root cat) = true ∧
    isdir fs (join (join src_root cat) coll) = true.

(** ** Appending what was not seen

    The loop [for c in l: if ok(c) and c not in seen: order.append(c)], from
    the order [acc] on. *)
Definition append_unseen (ok : str → bool) (acc l : list str) : list str :=
  foldl (λ acc c, if ok c && negb (bool_decide (c ∈ acc)) then acc ++ [c]
                  else acc) acc l.
(** * Sample inputs *)

Definition c6_fs : fsys :=
  {[ ("/lib/S01/Show - S01E01 - Intro.mp4" : str) := File 1;
     ("/lib/S01/Show - S01E01 - Intro (2).mp4" : str) := File 2 ]}.


Definition c4_item : promote.PlanItem :=
  {| promote.variant := "/r/_variants/Cat/E1.plex-appletv.mp4";
     promote.original := "/r/Cat/E1.mp4";
     promote.backup_original := "/r/_variants/_replaced_originals/Cat/E1.mp4" |}.

Definition c4_world : world :=
  World {[ ("/r" : str) := Dir;
           ("/r/Cat" : str) := Dir;
           ("/r/Cat/E1.mp4" : str) := File 1;
           ("/r/_variants" : str) := Dir;
           ("/r/_variants/Cat" : str) := Dir;
           ("/r/_variants/Cat/E1.plex-appletv.mp4" : str) := File 2 ]}
        [] [].

Definition c4_world_collision : world :=
  World (<[ ("/r/_variants/_replaced_originals/Cat/E1.mp4" : str) := File 7 ]>
           (w_fs c4_world)) [] [].




Definition manifest_entry (coll perma : string) (idx : nat) (c : string)
    : reorg.Entry :=
  {| reorg.category := None; reorg.collection := Some (coll : str);
     reorg.playlist_index := None; reorg.collection_index := Some idx;
     reorg.cid := Some (c : str); reorg.permalink := Some (perma : str) |}.


Definition c10_world : world :=
  World {[ ("/v" : str) := Dir;
           ("/v/Basics" : str) := Dir;
           ("/v/Basics/sugar-push.mp4" : str) := File 1 ]} [] [].

(** The files of one season, two of them without a number. *)
Definition c8_listing : list str :=
  [ ("/s/C/B/warm up.mp4" : str); ("/s/C/B/07 - Whip.mp4" : str);
    ("/s/C/B/cool down.mp4" : str); ("/s/C/B/Show - S01E12 - Tuck.mp4" : str) ].

(** A source tree with one season whose files carry a leading number and
    an SxxEyy code. *)
Definition c8_fs : fsys :=
  {[ ("/s" : str) := Dir; ("/s/C" : str) := Dir; ("/s/C/B" : str) := Dir;
     ("/s/C/B/07 - Whip.mp4" : str) := File 1;
     ("/s/C/B/Show - S01E12 - Tuck.mp4" : str) := File 2 ]}.

(** The season directory of the scenario of the rename script, with a file
    whose title carries a bracket id and no collection prefix. *)
Definition c9_fs : fsys :=
  {[ ("/g" : str) := Dir;
     ("/g/Season 01 - Basics 1 - Foundations" : str) := Dir;
     ("/g/Season 01 - Basics 1 - Foundations/GarySusan - S01E01 - Sugar Push [1516845].mp4" : str)
       := File 1 ]}.

(** A variant whose expected bare file name occurs twice in the index. *)
Definition c2_fs : fsys :=
  {[ ("/r" : str) := Dir;
     ("/r/A" : str) := Dir; ("/r/A/Ep.mp4" : str) := File 1;
     ("/r/B" : str) := Dir; ("/r/B/Ep.mp4" : str) := File 2;
     ("/r/_variants" : str) := Dir; ("/r/_variants/C" : str) := Dir;
     ("/r/_variants/C/Ep.plex-appletv.mp4" : str) := File 3 ]}.

(** The scenario of the specification: the variant carries a collection
    prefix and a bracket id, the original in the directory does not. *)
Definition c2_scenario_fs : fsys :=
  {[ ("/r" : str) := Dir; ("/r/Cat" : str) := Dir;
     ("/r/Cat/Coll" : str) := Dir;
     ("/r/Cat/Coll/Cat - S02E05 - Y.mp4" : str) := File 1;
     ("/r/_variants" : str) := Dir; ("/r/_variants/Cat" : str) := Dir;
     ("/r/_variants/Cat/Coll" : str) := Dir;
     ("/r/_variants/Cat/Coll/Cat - S02E05 - X [99].plex-appletv.mp4" : str)
       := File 2 ]}.

(** A collection directory with two downloads that start with the base of
    one permalink. *)
Definition c2_reorg_fs : fsys :=
  {[ ("/v" : str) := Dir; ("/v/Basics" : str) := Dir;
     ("/v/Basics/sugar-push-a.mp4" : str) := File 1;
     ("/v/Basics/sugar-push-b.mp4" : str) := File 2 ]}.
(** * Properties *)

(** ** String lemmas *)

Lemma rsplit_Some c s a b :
  rsplit c s = Some (a, b) → s = a ++ c :: b ∧ c ∉ b.
Proof.
  revert a b. induction s as [|x t IH]; intros a b; simpl; [done|].
  destruct (rsplit c t) as [[a' b']|] eqn:E.
  - intros [= <- <-]. destruct (IH a' b' eq_refl) as [-> ?]. done.
  - unfold chr_eqb. case_bool_decide; [|done]. intros [= <- <-]. subst x.
    split; [done|]. clear IH. induction t as [|y t IH]; [apply not_elem_of_nil|].
    simpl in E. destruct (rsplit c t) as [[??]|]; [done|].
    unfold chr_eqb in E. case_bool_decide; [done|].
    apply not_elem_of_cons. split; [congruence|]. by apply IH.
Qed.

Lemma splitext_app p : (splitext p).1 ++ (splitext p).2 = p.
Proof.
  unfold splitext.
  destruct (rsplit "/" p) as [[d n]|] eqn:E.
  - apply rsplit_Some in E as [-> _].
    destruct (rsplit "." n) as [[stem e]|] eqn:E2; simpl.
    + apply rsplit_Some in E2 as [-> _].
      destruct (forallb _ stem); simpl; [by rewrite app_nil_r|].
      by rewrite <- !app_assoc.
    + by rewrite app_nil_r.
  - destruct (rsplit "." p) as [[stem e]|] eqn:E2; simpl.
    + apply rsplit_Some in E2 as [-> _].
      destruct (forallb _ stem); simpl; [by rewrite app_nil_r|done].
    + by rewrite app_nil_r.
Qed.

Lemma list_ascii_of_string_inj s1 s2 :
  list_ascii_of_string s1 = list_ascii_of_string s2 → s1 = s2.
Proof.
  intros H. rewrite <- (string_of_list_ascii_of_string s1),
    <- (string_of_list_ascii_of_string s2). by rewrite H.
Qed.

Lemma str_of_nat_inj n m : str_of_nat n = str_of_nat m → n = m.
Proof.
  unfold str_of_nat. intros H%list_ascii_of_string_inj.
  assert (Some (Nat.to_uint n) = Some (Nat.to_uint m)) as [= E].
  { by rewrite <- !NilEmpty.usu, H. }
  by rewrite <- (Unsigned.of_to n), <- (Unsigned.of_to m), E.
Qed.

Lemma suffixed_inj base ext n m :
  suffixed base n ext = suffixed base m ext → n = m.
Proof.
  unfold suffixed. intros H.
  apply app_inv_head in H. apply app_inv_head in H.
  rewrite !app_assoc in H. apply app_inv_tail in H.
  apply app_inv_tail in H. by apply str_of_nat_inj.
Qed.

(** ** [unique_path] *)

Section unique_path_props.
Context (fs : fsys) (base ext : str).

Lemma probe_Some fuel n r :
  probe fs base ext fuel n = Some r →
  ∃ N, n ≤ N ∧ r = suffixed base N ext ∧ path_exists fs r = false ∧
       ∀ k, n ≤ k < N → path_exists fs (suffixed base k ext) = true.
Proof.
  revert n. induction fuel as [|fuel IH]; intros n; simpl; [done|].
  destruct (path_exists fs (suffixed base n ext)) eqn:E.
  - intros (N & ? & ? & ? & Hk)%IH. exists N. repeat split; [lia|done..|].
    intros k ?. destruct (decide (k = n)) as [->|]; [done|]. apply Hk. lia.
  - intros [= <-]. exists n. repeat split; [done..|]. intros; lia.
Qed.

Lemma probe_None fuel n :
  probe fs base ext fuel n = None →
  ∀ k, n ≤ k < n + fuel → path_exists fs (suffixed base k ext) = true.
Proof.
  revert n. induction fuel as [|fuel IH]; intros n; simpl; [intros; lia|].
  destruct (path_exists fs (suffixed base n ext)) eqn:E; [|done].
  intros H k ?. destruct (decide (k = n)) as [->|]; [done|].
  apply (IH _ H). lia.
Qed.

(** Finitely many paths exist, so the loop stops within [size fs + 1]
    rounds. *)
Lemma probe_enough_fuel n : is_Some (probe fs base ext (S (size fs)) n).
Proof.
  destruct (probe fs base ext (S (size fs)) n) eqn:E; [by eexists|].
  exfalso. pose proof (probe_None _ _ E) as Hall.
  set (names := (λ k, suffixed base k ext) <$> seq n (S (size fs))).
  assert (NoDup names) as Hnd.
  { apply NoDup_fmap_2; [|apply NoDup_seq].
    intros k1 k2. apply suffixed_inj. }
  assert (list_to_set names ⊆ dom fs) as Hsub.
  { intros p [k [-> Hk%elem_of_seq]]%elem_of_list_to_set%list_elem_of_fmap.
    apply elem_of_dom. specialize (Hall k Hk).
    unfold path_exists in Hall. by apply bool_decide_eq_true in Hall. }
  apply subseteq_size in Hsub.
  rewrite size_list_to_set, size_dom in Hsub by done.
  unfold names in Hsub. rewrite length_fmap, length_seq in Hsub. lia.
Qed.
End unique_path_props.

(** C6.  [unique_path] returns the planned path unchanged when nothing exists
    there; when the planned path exists it returns the path with [" (N)"]
    inserted before the extension, for the smallest [N ≥ 2] whose suffixed
    path does not exist; the loop always ends and the returned path never
    names an existing file. *)
Theorem unique_path_smallest_free_suffix (fs : fsys) (path : str) :
  (splitext path).1 ++ (splitext path).2 = path ∧
  (path_exists fs path = false → unique_path fs path = Some path) ∧
  (path_exists fs path = true →
     ∃ N, 2 ≤ N ∧
       unique_path fs path
         = Some ((splitext path).1 ++ " (" ++ str_of_nat N ++ ")"
                   ++ (splitext path).2) ∧
       ∀ k, 2 ≤ k < N →
         path_exists fs ((splitext path).1 ++ " (" ++ str_of_nat k ++ ")"
                           ++ (splitext path).2) = true) ∧
  (∃ r, unique_path fs path = Some r ∧ path_exists fs r = false).
Proof.
  split; [apply splitext_app|].
  unfold unique_path. destruct (path_exists fs path) eqn:E; cbn [negb].
  - destruct (splitext path) as [base ext] eqn:Es; cbn [fst snd].
    destruct (probe_enough_fuel fs base ext 2) as [r Hr].
    destruct (probe_Some _ _ _ _ _ _ Hr) as (N & ? & -> & ? & Hk).
    split; [done|]. split; [|by eexists].
    intros _. exists N. split; [done|]. split; [exact Hr|exact Hk].
  - split; [done|]. split; [done|]. by exists path.
Qed.

Lemma unique_path_smallest_free_suffix_witness :
  unique_path c6_fs "/lib/S01/Show - S01E01 - Intro.mp4"
    = Some ("/lib/S01/Show - S01E01 - Intro (3).mp4" : str) ∧
  ∃ r, unique_path c6_fs "/lib/S01/Show - S01E01 - Intro.mp4" = Some r ∧
       path_exists c6_fs r = false.
Proof.
  split; [by vm_compute|].
  apply (unique_path_smallest_free_suffix c6_fs
           "/lib/S01/Show - S01E01 - Intro.mp4").
Defined.

(** ** Directory creation *)

Lemma extends_refl w : extends w w.
Proof.
  split; [done| |done|by left]. exists []. by rewrite app_nil_r.
Qed.

Lemma extends_trans w1 w2 w3 : extends w1 w2 → extends w2 w3 → extends w1 w3.
Proof.
  intros [Ho1 (mk1 & Hl1 & Hf1) Hk1 Hn1] [Ho2 (mk2 & Hl2 & Hf2) Hk2 Hn2].
  split.
  - congruence.
  - exists (mk1 ++ mk2). rewrite Hl2, Hl1, app_assoc. split; [done|].
    by apply Forall_app.
  - eauto.
  - intros k x Hx. destruct (Hn2 _ _ Hx) as [?|?]; [eauto|by right].
Qed.

Lemma extends_mkdir w d :
  w_fs w !! d = None ∨ w_fs w !! d = Some Dir →
  extends w (World (<[d := Dir]> (w_fs w)) (w_log w ++ [SysMkdir d]) (w_out w)).
Proof.
  intros Hd. split; simpl.
  - done.
  - exists [SysMkdir d]. by repeat constructor.
  - intros k x Hx. destruct (decide (k = d)) as [->|].
    + rewrite lookup_insert_eq. destruct Hd; congruence.
    + by rewrite lookup_insert_ne.
  - intros k x. destruct (decide (k = d)) as [->|].
    + rewrite lookup_insert_eq. intros [= <-]. by right.
    + rewrite lookup_insert_ne by done. by left.
Qed.

Lemma makedirs_go_extends fuel d w w' r :
  makedirs_go fuel d w = (w', r) → extends w w'.
Proof.
  revert d w w' r. induction fuel as [|fuel IH]; intros d w w' r; simpl.
  - destruct (w_fs w !! d) as [[]|]; [by intros [= <- <-]; apply extends_refl..|].
    repeat case_match; intros [= <- <-]; apply extends_refl.
  - destruct (w_fs w !! d) as [[]|] eqn:Ed;
      [by intros [= <- <-]; apply extends_refl..|].
    destruct (bool_decide (d = [])); [by intros [= <- <-]; apply extends_refl|].
    destruct (all_slashes d); [by intros [= <- <-]; apply extends_refl|].
    set (up := dirname d).
    assert (∀ w1 r1,
      (if bool_decide (up = []) then (w, Ok ()) else makedirs_go fuel up w)
        = (w1, r1) → extends w w1) as Hup.
    { intros w1 r1. case_bool_decide; [intros [= <- <-]; apply extends_refl|].
      apply IH. }
    destruct (if bool_decide (up = []) then _ else _) as [w1 r1] eqn:E1.
    specialize (Hup _ _ eq_refl).
    assert (w_fs w1 !! d = None ∨ w_fs w1 !! d = Some Dir) as Hd.
    { destruct (w_fs w1 !! d) as [x|] eqn:Ex; [|by left].
      destruct (ext_new _ _ Hup _ _ Ex) as [?| ->]; [congruence|by right]. }
    destruct r1 as [ [] | e ]; [|by intros [= <- <-]].
    destruct (w_fs w1 !! up) as [[]|]; [by intros [= <- <-]|..].
    all: intros [= <- <-]; eapply extends_trans; [exact Hup|].
    all: by apply extends_mkdir.
Qed.

Lemma makedirs_extends d w w' r : makedirs d w = (w', r) → extends w w'.
Proof. apply makedirs_go_extends. Qed.

Lemma makedirs_go_Ok fuel d w w' :
  makedirs_go fuel d w = (w', Ok ()) →
  all_slashes d = true ∨ w_fs w' !! d = Some Dir.
Proof.
  destruct fuel as [|fuel]; simpl.
  - destruct (w_fs w !! d) as [[]|] eqn:Ed; [done|by intros [= <-]; right|].
    case_bool_decide; [done|]. destruct (all_slashes d); [by left|done].
  - destruct (w_fs w !! d) as [[]|] eqn:Ed; [done|by intros [= <-]; right|].
    case_bool_decide; [done|]. destruct (all_slashes d); [by left|].
    destruct (if bool_decide (dirname d = []) then _ else _) as [w1 [ [] | e ] ];
      [|done].
    destruct (w_fs w1 !! dirname d) as [[]|]; [done|..].
    all: intros [= <-]; right; simpl; apply lookup_insert_eq.
Qed.

Lemma makedirs_isdir d w :
  isdir (w_fs w) d = true → makedirs d w = (w, Ok ()).
Proof.
  unfold isdir, makedirs. intros H%bool_decide_eq_true.
  destruct (length d); simpl; by rewrite H.
Qed.

Lemma drop_while_length f s : length (drop_while f s) ≤ length s.
Proof. induction s as [|c t IH]; simpl; [done|]. destruct (f c); simpl; lia. Qed.

Lemma rstrip_by_length f s : length (rstrip_by f s) ≤ length s.
Proof.
  unfold rstrip_by. rewrite length_reverse.
  etrans; [apply drop_while_length|]. by rewrite length_reverse.
Qed.

Lemma rstrip_by_snoc f s c :
  f c = true → rstrip_by f (s ++ [c]) = rstrip_by f s.
Proof. intros H. unfold rstrip_by. rewrite reverse_snoc. simpl. by rewrite H. Qed.

Lemma all_slashes_app a b :
  all_slashes (a ++ b) = all_slashes a && all_slashes b.
Proof. apply forallb_app. Qed.

Lemma dirname_shorter p : all_slashes p = false → length (dirname p) < length p.
Proof.
  intros Hp. unfold dirname.
  destruct (rsplit "/" p) as [[a b]|] eqn:E.
  - apply rsplit_Some in E as [-> _].
    change (list_ascii_of_string "/") with ["/"%char] in *.
    destruct (all_slashes (a ++ ["/"%char])) eqn:Ea.
    + destruct b as [|c b]; [congruence|].
      rewrite !length_app. simpl. lia.
    + rewrite rstrip_by_snoc by done. rewrite length_app.
      pose proof (rstrip_by_length (chr_eqb "/") a). simpl. lia.
  - destruct p; [done|simpl; lia].
Qed.

Lemma makedirs_go_new fuel d w w' r k x :
  makedirs_go fuel d w = (w', r) → w_fs w' !! k = Some x →
  w_fs w !! k = Some x ∨ (all_slashes k = false ∧ length k ≤ length d).
Proof.
  revert d w w' r. induction fuel as [|fuel IH]; intros d w w' r; simpl.
  - destruct (w_fs w !! d) as [[]|]; [by intros [= <- <-]; left..|].
    repeat case_match; intros [= <- <-]; by left.
  - destruct (w_fs w !! d) as [[]|] eqn:Ed; [by intros [= <- <-]; left..|].
    destruct (bool_decide (d = [])); [by intros [= <- <-]; left|].
    destruct (all_slashes d) eqn:Hd; [by intros [= <- <-]; left|].
    pose proof (dirname_shorter d Hd) as Hlen.
    set (up := dirname d) in *.
    assert (∀ w1 r1,
      (if bool_decide (up = []) then (w, Ok ()) else makedirs_go fuel up w)
        = (w1, r1) → w_fs w1 !! k = Some x →
      w_fs w !! k = Some x ∨ (all_slashes k = false ∧ length k ≤ length d))
      as Hup.
    { intros w1 r1. case_bool_decide; [intros [= <- <-]; by left|].
      intros H1 H2. destruct (IH _ _ _ _ H1 H2) as [?|[??]]; [by left|].
      right. split; [done|lia]. }
    destruct (if bool_decide (up = []) then _ else _) as [w1 r1] eqn:E1.
    specialize (Hup _ _ eq_refl).
    destruct r1 as [ [] | e ]; [|by intros [= <- <-]].
    destruct (w_fs w1 !! up) as [[]|]; [by intros [= <- <-]|..].
    all: intros [= <- <-]; simpl.
    all: destruct (decide (k = d)) as [->|];
      [intros _; by right|by rewrite lookup_insert_ne].
Qed.

(** ** [os.rename] *)

Lemma os_rename_Ok src dst c w :
  w_fs w !! src = Some (File c) →
  parent_ok (w_fs w) dst = true →
  isdir (w_fs w) dst = false →
  os_rename src dst w
    = (World (<[dst := File c]> (delete src (w_fs w)))
             (w_log w ++ [SysRename src dst]) (w_out w), Ok ()).
Proof. intros H1 H2 H3. unfold os_rename. by rewrite H1, H2, H3. Qed.

Lemma path_exists_true fs p : path_exists fs p = true ↔ is_Some (fs !! p).
Proof. unfold path_exists. by rewrite bool_decide_eq_true. Qed.

Lemma path_exists_false fs p : path_exists fs p = false ↔ fs !! p = None.
Proof.
  unfold path_exists. rewrite bool_decide_eq_false. symmetry. apply eq_None_not_Some.
Qed.

Lemma isdir_true fs p : isdir fs p = true ↔ fs !! p = Some Dir.
Proof. unfold isdir. by rewrite bool_decide_eq_true. Qed.

Lemma isdir_false fs p : fs !! p ≠ Some Dir → isdir fs p = false.
Proof. unfold isdir. by rewrite bool_decide_eq_false. Qed.

(** ** [promote_one] *)

Section promote_one_props.
Import promote.

Lemma promote_one_collision p w :
  path_exists (w_fs w) (backup_original p) = true →
  ∃ e, promote_one p w = (w, Raise e).
Proof.
  intros Hb. unfold promote_one, mbind, io_bind, os_path_exists, raise.
  destruct (path_exists (w_fs w) (variant p)); cbn [negb]; [|by eexists].
  destruct (path_exists (w_fs w) (original p)); cbn [negb]; [|by eexists].
  rewrite Hb. by eexists.
Qed.

Lemma promote_one_replaces p w w1 cv co :
  w_fs w !! variant p = Some (File cv) →
  w_fs w !! original p = Some (File co) →
  path_exists (w_fs w) (backup_original p) = false →
  variant p ≠ original p →
  isdir (w_fs w) (dirname (original p)) = true →
  ensure_parent (backup_original p) w = (w1, Ok ()) →
  promote_one p w
    = (World (<[original p := File cv]> (delete (variant p)
                (<[backup_original p := File co]> (delete (original p)
                   (w_fs w1)))))
             (w_log w1 ++ [SysRename (original p) (backup_original p);
                           SysRename (variant p) (original p)])
             (w_out w1), Ok ()).
Proof.
  intros Hv Ho Hb%path_exists_false Hne Hd%isdir_true Hmk.
  pose proof (makedirs_extends _ _ _ _ Hmk) as Hext.
  assert (w_fs w1 !! backup_original p = None) as Hb1.
  { destruct (w_fs w1 !! backup_original p) as [x|] eqn:Ex; [|done].
    destruct (makedirs_go_new _ _ _ _ _ _ _ Hmk Ex) as [?|[Hs Hl]];
      [congruence|].
    apply dirname_shorter in Hs. lia. }
  assert (parent_ok (w_fs w1) (backup_original p) = true) as Hpar.
  { unfold parent_ok. apply makedirs_go_Ok in Hmk as [->|Hx].
    - by rewrite orb_true_r.
    - apply isdir_true in Hx. rewrite Hx. by rewrite !orb_true_r. }
  unfold promote_one, mbind, io_bind, os_path_exists, raise.
  rewrite (proj2 (path_exists_true _ _)) by eauto. cbn [negb].
  rewrite (proj2 (path_exists_true _ _)) by eauto. cbn [negb].
  rewrite (proj2 (path_exists_false _ _)) by done.
  rewrite Hmk.
  rewrite (os_rename_Ok _ _ co); [|by eapply ext_keep|done|
    by apply isdir_false; rewrite Hb1].
  set (w2 := World _ _ _).
  assert (w_fs w2 !! dirname (original p) = Some Dir) as Hd2.
  { simpl. rewrite lookup_insert_ne by congruence.
    rewrite lookup_delete_ne by congruence. by eapply ext_keep. }
  unfold ensure_parent at 1.
  rewrite (makedirs_isdir _ w2) by by apply isdir_true.
  rewrite (os_rename_Ok _ _ cv).
  - simpl. by rewrite <- app_assoc.
  - simpl. rewrite lookup_insert_ne by congruence.
    rewrite lookup_delete_ne by done. by eapply ext_keep.
  - unfold parent_ok. apply isdir_true in Hd2. rewrite Hd2.
    by rewrite !orb_true_r.
  - apply isdir_false. simpl. rewrite lookup_insert_ne by congruence.
    by rewrite lookup_delete_eq.
Qed.
End promote_one_props.

(** C4.  A backup-then-replace promotion whose backup location exists fails
    and leaves the world as it was: no file is moved and the existing backup
    stays.  Otherwise, with the variant and the original present, the
    original goes to the backup location first (after the creation of its
    parent directories) and the variant is moved to the vacated original
    path only after that. *)
Theorem promote_one_backup_then_replace (p : promote.PlanItem) (w : world) :
  (path_exists (w_fs w) (promote.backup_original p) = true →
     ∃ e, promote.promote_one p w = (w, Raise e)) ∧
  (∀ cv co w1,
     w_fs w !! promote.variant p = Some (File cv) →
     w_fs w !! promote.original p = Some (File co) →
     path_exists (w_fs w) (promote.backup_original p) = false →
     promote.variant p ≠ promote.original p →
     isdir (w_fs w) (dirname (promote.original p)) = true →
     makedirs (dirname (promote.backup_original p)) w = (w1, Ok ()) →
     ∃ w' mk,
       promote.promote_one p w = (w', Ok ()) ∧
       Forall is_mkdir mk ∧
       w_log w' = w_log w ++ mk
         ++ [SysRename (promote.original p) (promote.backup_original p);
             SysRename (promote.variant p) (promote.original p)] ∧
       w_fs w' !! promote.backup_original p = Some (File co) ∧
       w_fs w' !! promote.original p = Some (File cv) ∧
       w_fs w' !! promote.variant p = None).
Proof.
  split; [apply promote_one_collision|].
  intros cv co w1 Hv Ho Hb Hne Hd Hmk.
  destruct (ext_log _ _ (makedirs_extends _ _ _ _ Hmk)) as (mk & Hlog & Hmkd).
  eexists _, mk. split; [by eapply promote_one_replaces|].
  split; [done|]. simpl. rewrite Hlog, <- app_assoc. split; [done|].
  apply path_exists_false in Hb.
  assert (promote.backup_original p ≠ promote.original p) by congruence.
  assert (promote.backup_original p ≠ promote.variant p) by congruence.
  rewrite lookup_insert_eq.
  rewrite lookup_insert_ne, lookup_delete_ne, lookup_insert_eq by done.
  by rewrite lookup_insert_ne, lookup_delete_eq by done.
Qed.

Lemma promote_one_backup_then_replace_witness :
  (∃ e, promote.promote_one c4_item c4_world_collision
          = (c4_world_collision, Raise e)) ∧
  ∃ w' mk,
    promote.promote_one c4_item c4_world = (w', Ok ()) ∧
    Forall is_mkdir mk ∧
    w_log w' = w_log c4_world ++ mk
      ++ [SysRename (promote.original c4_item) (promote.backup_original c4_item);
          SysRename (promote.variant c4_item) (promote.original c4_item)] ∧
    w_fs w' !! promote.backup_original c4_item = Some (File 1) ∧
    w_fs w' !! promote.original c4_item = Some (File 2) ∧
    w_fs w' !! promote.variant c4_item = None.
Proof.
  split.
  - apply (proj1 (promote_one_backup_then_replace c4_item c4_world_collision)).
    by vm_compute.
  - eapply (proj2 (promote_one_backup_then_replace c4_item c4_world) 2 1).
    + by vm_compute.
    + by vm_compute.
    + by vm_compute.
    + by vm_compute.
    + by vm_compute.
    + vm_compute. reflexivity.
Defined.

(** ** The planning loop of reorg_plex_tv.py *)


Section plan_loop.
Context (fs : fsys) (root show : str) (dirs order : list str).

Let step := reorg.plan_step fs root show dirs order.






End plan_loop.

(** ** The destination conflict check of reorg_plex_tv.py *)

Lemma occurrences_snoc d l x :
  occurrences d (l ++ [x])
    = occurrences d l + (if decide (x = d) then 1 else 0).
Proof.
  unfold occurrences. rewrite filter_app, length_app. f_equal.
  rewrite filter_cons, filter_nil. by destruct (decide (x = d)).
Qed.


Lemma dst_counts_lookup pl d :
  reorg.dst_counts pl !! d
    = if decide (occurrences d pl.*2 = 0) then None
      else Some (occurrences d pl.*2).
Proof.
  unfold reorg.dst_counts.
  induction pl as [|[[e src] dst] pl IH] using rev_ind; [done|].
  rewrite foldl_snoc, fmap_app.
  change ([(e, src, dst)].*2) with [dst]. rewrite occurrences_snoc. simpl.
  destruct (decide (dst = d)) as [->|Hne].
  - rewrite lookup_insert_eq, IH.
    destruct (decide (occurrences d pl.*2 = 0)) as [->|]; simpl.
    + done.
    + destruct (decide (_ = 0)); [lia|]. f_equal. lia.
  - rewrite lookup_insert_ne, IH by done. rewrite Nat.add_0_r. done.
Qed.


(** ** Failures of the system calls *)

Lemma makedirs_go_raises fuel d w w' e :
  length d ≤ fuel → makedirs_go fuel d w = (w', Raise e) →
  is_Exception e = true.
Proof.
  revert d w w' e. induction fuel as [|fuel IH]; intros d w w' e Hlen; simpl.
  - destruct d; [|simpl in Hlen; lia].
    destruct (w_fs w !! []) as [[]|]; [by intros [= <- <-]|done|].
    simpl. by intros [= <- <-].
  - destruct (w_fs w !! d) as [[]|]; [by intros [= <- <-]|done|].
    case_bool_decide; [by intros [= <- <-]|].
    destruct (all_slashes d) eqn:Hd; [done|].
    pose proof (dirname_shorter d Hd) as Hup.
    case_bool_decide as Hnil.
    + destruct (w_fs w !! dirname d) as [[]|]; [by intros [= <- <-]|done..].
    + destruct (makedirs_go fuel (dirname d) w) as [w1 [ [] | e1 ]] eqn:E1.
      * destruct (w_fs w1 !! dirname d) as [[]|]; [by intros [= <- <-]|done..].
      * apply IH in E1; [|lia]. intros [= <- <-]. by destruct e1.
Qed.

Lemma makedirs_raises d w w' e :
  makedirs d w = (w', Raise e) → is_Exception e = true.
Proof. by apply makedirs_go_raises. Qed.

Lemma os_rename_raises src dst w w' e :
  os_rename src dst w = (w', Raise e) → is_Exception e = true ∧ w' = w.
Proof.
  unfold os_rename. destruct (w_fs w !! src) as [[]|]; [|by intros [= <- <-]..].
  destruct (negb _); [by intros [= <- <-]|].
  destruct (isdir _ _); [by intros [= <- <-]|done].
Qed.

Lemma os_rename_out src dst w w' r :
  os_rename src dst w = (w', r) → w_out w' = w_out w.
Proof.
  unfold os_rename. destruct (w_fs w !! src) as [[]|]; [|by intros [= <- <-]..].
  destruct (negb _); [by intros [= <- <-]|].
  destruct (isdir _ _); [by intros [= <- <-]|]. by intros [= <- <-].
Qed.

(** ** The apply loop of promote_plex_appletv_variants.py *)

Lemma promote_one_raises p w w' e :
  promote.promote_one p w = (w', Raise e) → is_Exception e = true.
Proof.
  unfold promote.promote_one, mbind, io_bind, os_path_exists, raise,
    ensure_parent.
  destruct (path_exists _ (promote.variant p)); cbn [negb];
    [|by intros [= <- <-]].
  destruct (path_exists _ (promote.original p)); cbn [negb];
    [|by intros [= <- <-]].
  destruct (path_exists _ (promote.backup_original p));
    [by intros [= <- <-]|].
  destruct (makedirs _ w) as [w1 [ [] | e1 ]] eqn:E1;
    [|intros [= <- <-]; by eapply makedirs_raises].
  destruct (os_rename _ _ w1) as [w2 [ [] | e2 ]] eqn:E2;
    [|intros [= <- <-]; by eapply os_rename_raises].
  destruct (makedirs _ w2) as [w3 [ [] | e3 ]] eqn:E3;
    [|intros [= <- <-]; by eapply makedirs_raises].
  intros H. by eapply os_rename_raises.
Qed.

Lemma promote_one_out p w w' r :
  promote.promote_one p w = (w', r) → w_out w' = w_out w.
Proof.
  unfold promote.promote_one, mbind, io_bind, os_path_exists, raise,
    ensure_parent.
  destruct (path_exists _ (promote.variant p)); cbn [negb];
    [|by intros [= <- <-]].
  destruct (path_exists _ (promote.original p)); cbn [negb];
    [|by intros [= <- <-]].
  destruct (path_exists _ (promote.backup_original p));
    [by intros [= <- <-]|].
  destruct (makedirs _ w) as [w1 r1] eqn:E1.
  apply makedirs_extends, ext_out in E1.
  destruct r1 as [ [] | e1 ]; [|by intros [= <- <-]].
  destruct (os_rename _ _ w1) as [w2 r2] eqn:E2. apply os_rename_out in E2.
  destruct r2 as [ [] | e2 ]; [|intros [= <- <-]; congruence].
  destruct (makedirs _ w2) as [w3 r3] eqn:E3.
  apply makedirs_extends, ext_out in E3.
  destruct r3 as [ [] | e3 ]; [|intros [= <- <-]; congruence].
  intros H%os_rename_out. congruence.
Qed.

Lemma promote_one_delete_original_raises p w w' e :
  promote.promote_one_delete_original p w = (w', Raise e) →
  is_Exception e = true.
Proof.
  unfold promote.promote_one_delete_original, mbind, io_bind, os_path_exists,
    raise, ensure_parent.
  destruct (path_exists _ (promote.variant p)); cbn [negb];
    [|by intros [= <- <-]].
  destruct (makedirs _ w) as [w1 [ [] | e1 ]] eqn:E1;
    [|intros [= <- <-]; by eapply makedirs_raises].
  intros H. by eapply os_rename_raises.
Qed.

Lemma promote_one_delete_original_out p w w' r :
  promote.promote_one_delete_original p w = (w', r) → w_out w' = w_out w.
Proof.
  unfold promote.promote_one_delete_original, mbind, io_bind, os_path_exists,
    raise, ensure_parent.
  destruct (path_exists _ (promote.variant p)); cbn [negb];
    [|by intros [= <- <-]].
  destruct (makedirs _ w) as [w1 r1] eqn:E1.
  apply makedirs_extends, ext_out in E1.
  destruct r1 as [ [] | e1 ]; [|by intros [= <- <-]].
  intros H%os_rename_out. congruence.
Qed.

Lemma promote_apply_one_outcome del p w :
  ∃ w' l ok, promote.apply_one del p w = (w', Ok ok) ∧
    w_out w' = w_out w ++ [l] ∧ promote_outcome p l ∧
    (ok = true ↔ action l = ("DONE" : str)).
Proof.
  unfold promote.apply_one, try_except, mbind, io_bind, emit, mret, io_ret.
  set (m := if del then _ else _).
  assert ((∀ w' r, m w = (w', r) → w_out w' = w_out w) ∧
          (∀ w' e, m w = (w', Raise e) → is_Exception e = true)) as [Ho He].
  { unfold m. destruct del; split; intros ??;
      eauto using promote_one_out, promote_one_raises,
        promote_one_delete_original_out, promote_one_delete_original_raises. }
  destruct (m w) as [w1 [ [] | e ]] eqn:E.
  - eexists _, _, true. split; [done|]. simpl.
    rewrite (Ho _ _ eq_refl). split; [done|]. split; [by left|done].
  - rewrite (He _ _ eq_refl). eexists _, _, false. split; [done|]. simpl.
    rewrite (Ho _ _ eq_refl). split; [done|]. split; [by right|].
    split; [done|]. intros [=].
Qed.

Lemma promote_apply_plan_outcomes del plan w :
  ∃ w' ls errors, promote.apply_plan del plan w = (w', Ok errors) ∧
    w_out w' = w_out w ++ ls ∧ Forall2 promote_outcome plan ls ∧
    errors = length (filter (λ l, action l = ("ERROR" : str)) ls).
Proof.
  revert w. induction plan as [|p plan IH]; intros w; simpl.
  - exists w, [], 0. by rewrite app_nil_r.
  - destruct (promote_apply_one_outcome del p w)
      as (w1 & l & ok & E1 & Ho1 & Hl & Hok).
    destruct (IH w1) as (w2 & ls & errors & E2 & Ho2 & Hls & ->).
    unfold mbind, io_bind at 1. rewrite E1.
    unfold mbind, io_bind at 1. rewrite E2.
    eexists w2, (l :: ls), _. split; [done|].
    split; [by rewrite Ho2, Ho1, <- app_assoc|]. split; [by constructor|].
    rewrite filter_cons. destruct Hl as [-> | ->]; cbn [action] in *.
    + destruct ok; [|by destruct Hok as [_ Hok]; specialize (Hok eq_refl)].
      by case_decide.
    + destruct ok; [by destruct Hok as [Hok _]; specialize (Hok eq_refl)|].
      by case_decide.
Qed.

(** ** The apply loop of reorg_plex_tv.py *)















(** ** The order of [sorted] *)

Lemma nat_of_ascii_inj a b : nat_of_ascii a = nat_of_ascii b → a = b.
Proof.
  intros H. by rewrite <- (ascii_nat_embedding a), <- (ascii_nat_embedding b), H.
Qed.

Global Instance str_le_total : Total str_le.
Proof.
  intros a. unfold str_le. induction a as [|x a IH]; intros [|y b]; simpl; auto.
  unfold chr_eqb.
  destruct (Nat.ltb_spec (nat_of_ascii x) (nat_of_ascii y)); [by left|].
  destruct (Nat.ltb_spec (nat_of_ascii y) (nat_of_ascii x)); [by right|].
  assert (x = y) as -> by (apply nat_of_ascii_inj; lia).
  rewrite bool_decide_eq_true_2 by done. apply IH.
Qed.

Global Instance str_le_trans : Transitive str_le.
Proof.
  intros a. unfold str_le. induction a as [|x a IH]; intros [|y b] [|z c];
    simpl; try done.
  unfold chr_eqb.
  destruct (Nat.ltb_spec (nat_of_ascii x) (nat_of_ascii y)) as [Hxy|Hxy].
  - intros _. destruct (Nat.ltb_spec (nat_of_ascii y) (nat_of_ascii z)).
    + intros _. destruct (Nat.ltb_spec (nat_of_ascii x) (nat_of_ascii z));
        [done|lia].
    + case_bool_decide as E; [|done]. subst z. intros _.
      destruct (Nat.ltb_spec (nat_of_ascii x) (nat_of_ascii y)); [done|lia].
  - case_bool_decide as E; [|done]. subst y. intros Hab.
    destruct (Nat.ltb_spec (nat_of_ascii x) (nat_of_ascii z)); [done|].
    case_bool_decide; [|done]. by apply IH.
Qed.

Global Instance str_le_antisymm : AntiSymm (=) str_le.
Proof.
  intros a. unfold str_le. induction a as [|x a IH]; intros [|y b]; simpl;
    try done.
  unfold chr_eqb.
  destruct (Nat.ltb_spec (nat_of_ascii x) (nat_of_ascii y)) as [Hxy|Hxy].
  - intros _. destruct (Nat.ltb_spec (nat_of_ascii y) (nat_of_ascii x)); [lia|].
    case_bool_decide; [subst; lia|done].
  - case_bool_decide as E; [|done]. subst y. intros Hab.
    destruct (Nat.ltb_spec (nat_of_ascii x) (nat_of_ascii x)); [lia|].
    rewrite bool_decide_eq_true_2 by done. intros Hba. f_equal. by apply IH.
Qed.

(** The result of [sorted] does not depend on the order of the listing. *)
Lemma sorted_permutation l1 l2 : l1 ≡ₚ l2 → sorted l1 = sorted l2.
Proof.
  intros H. unfold sorted.
  apply (Sorted_unique str_le); [apply Sorted_merge_sort, _..|].
  by rewrite !merge_sort_Permutation.
Qed.

(** ** Episode numbers *)

Lemma number_go_length have_any seq ex :
  length (number_go have_any seq ex) = length ex.
Proof.
  revert seq. induction ex as [|x ex IH]; intros seq; simpl; [done|].
  destruct (if have_any then x else None); simpl; by rewrite IH.
Qed.

Lemma number_go_explicit seq ex i n :
  ex !! i = Some (Some n) → number_go true seq ex !! i = Some n.
Proof.
  revert seq i. induction ex as [|x ex IH]; intros seq [|i]; simpl; try done.
  - by intros [= ->].
  - intros H. destruct x; simpl; by apply IH.
Qed.

Lemma number_go_sequential have_any seq ex i :
  ex !! i = Some None →
  number_go have_any seq ex !! i
    = Some (seq + length (filter (λ x, (if have_any then x else None) = None)
                                 (take i ex))).
Proof.
  revert seq i. induction ex as [|x ex IH]; intros seq [|i]; simpl; try done.
  - intros [= ->]. destruct have_any; simpl; f_equal; lia.
  - intros H. rewrite filter_cons.
    destruct (if have_any then x else None) eqn:E; simpl.
    + by apply IH.
    + rewrite (IH _ _ H). f_equal. lia.
Qed.

Lemma existsb_is_Some_false (ex : list (option nat)) :
  existsb (λ e : option nat, bool_decide (is_Some e)) ex = false →
  ∀ x, x ∈ ex → x = None.
Proof.
  induction ex as [|y ex IH]; simpl; [by intros _ x ?%elem_of_nil|].
  intros [Hy Hex]%orb_false_elim x [Ex|Hx]%elem_of_cons; [|by apply IH].
  subst y. apply bool_decide_eq_false in Hy.
  destruct x; [by destruct Hy|done].
Qed.

Lemma filter_have_any_length (ex l : list (option nat)) :
  l ⊆ ex →
  length (filter (λ x, (if existsb (λ e : option nat, bool_decide (is_Some e)) ex
                        then x else None) = None) l)
    = length (filter (λ x, x = None) l).
Proof.
  intros Hsub. destruct (existsb _ ex) eqn:E; [done|].
  pose proof (existsb_is_Some_false _ E) as Hnone.
  induction l as [|x l IH]; [done|].
  rewrite !filter_cons. rewrite decide_True by done.
  rewrite decide_True by (apply Hnone, Hsub; left).
  simpl. f_equal. apply IH. intros y Hy. apply Hsub. by right.
Qed.

Lemma filter_fmap_length {A B} (f : A → B) (P : B → Prop)
    `{!∀ x, Decision (P x)} (l : list A) :
  length (filter P (f <$> l)) = length (filter (λ x, P (f x)) l).
Proof.
  induction l as [|x l IH]; [done|].
  rewrite fmap_cons, !filter_cons. destruct (decide (P (f x))); simpl; lia.
Qed.

Section episode_numbers.
Context (parse : str → option nat) (listing : list str).

Let files := sorted listing.
Let extracted := (λ f, parse (basename f)) <$> files.
Let numbers := episode_numbers extracted.

Lemma episode_numbers_spec :
  length numbers = length files ∧
  (∀ i f n, files !! i = Some f → parse (basename f) = Some n →
            numbers !! i = Some n) ∧
  (∀ i f, files !! i = Some f → parse (basename f) = None →
     numbers !! i
       = Some (1 + length (filter (λ g, parse (basename g) = None)
                                  (take i files)))) ∧
  (∀ listing', listing' ≡ₚ listing → sorted listing' = files).
Proof.
  unfold numbers, episode_numbers. split; [|split; [|split]].
  - rewrite number_go_length. unfold extracted. by rewrite length_fmap.
  - intros i f n Hf Hn.
    assert (extracted !! i = Some (Some n)) as Hi.
    { unfold extracted. by rewrite list_lookup_fmap, Hf, <- Hn. }
    destruct (existsb _ extracted) eqn:E.
    + by apply number_go_explicit.
    + pose proof (existsb_is_Some_false _ E (Some n)
                    (list_elem_of_lookup_2 _ _ _ Hi)). done.
  - intros i f Hf Hn.
    assert (extracted !! i = Some None) as Hi.
    { unfold extracted. by rewrite list_lookup_fmap, Hf, <- Hn. }
    rewrite (number_go_sequential _ _ _ _ Hi). do 2 f_equal.
    rewrite filter_have_any_length
      by (intros x Hx; eapply elem_of_sublist; [exact Hx|apply sublist_take]).
    unfold extracted. rewrite <- fmap_take.
    apply (filter_fmap_length (λ f, parse (basename f)) (λ x, x = None)).
  - intros listing' H. by apply sorted_permutation.
Qed.
End episode_numbers.

(** C8.  In a season of organize_uscreen_tree_as_show.py and in a group of
    organize_dance_tvshows.py, a file whose name yields an ordinal to the
    script's reader ([parse_ep]: a leading number;
    [parse_episode_number_from_filename]: an SxxEyy code, else a leading
    number) gets that ordinal as its episode number, whatever the other
    files are; a file without one gets 1 plus the number of files without one
    before it in the sorted list; and the sorted list is the same for every
    order of the directory listing. *)
Theorem explicit_episode_ordinals_are_kept (listing : list str) :
  numbering_spec uscreen.parse_ep listing ∧
  numbering_spec dance.parse_episode_number_from_filename listing.
Proof. split; apply episode_numbers_spec. Qed.

Lemma explicit_episode_ordinals_are_kept_witness :
  episode_numbers
    ((λ f, dance.parse_episode_number_from_filename (basename f))
       <$> sorted c8_listing) = [7; 12; 1; 2] ∧
  episode_numbers
    ((λ f, uscreen.parse_ep (basename f)) <$> sorted c8_listing)
    = [7; 1; 2; 3] ∧
  numbering_spec dance.parse_episode_number_from_filename c8_listing.
Proof.
  split; [by vm_compute|]. split; [by vm_compute|].
  apply (explicit_episode_ordinals_are_kept c8_listing).
Defined.

(** C8 counterexample: organize_uscreen_tree_as_show.py reads no SxxEyy
    code.  In the season of [c8_fs] the file with the code S01E12 is planned
    as episode 1. *)
Lemma uscreen_ignores_sxxeyy_ordinal :
  (group "e" <$> re_search dance.SXXEXX_RE "Show - S01E12 - Tuck.mp4")
    = Some ("12" : str) ∧
  uscreen.parse_ep "Show - S01E12 - Tuck.mp4" = None ∧
  episode_numbers
    ((λ f, uscreen.parse_ep (basename f)) <$> videos_in c8_fs "/s/C/B")
    = [7; 1] ∧
  (uscreen.main "/s" "/d" "Show" hardlink false "report.tsv"
     (World c8_fs [] [])).2
    = Ok [ ("/s/C/B/07 - Whip.mp4" : str,
            "/d/Show/Season 01 - C - B/Show - S01E07 - Whip.mp4" : str);
           ("/s/C/B/Show - S01E12 - Tuck.mp4" : str,
            "/d/Show/Season 01 - C - B/Show - S01E01 - Show - S01E12 - Tuck.mp4" : str) ].
Proof. repeat split; by vm_compute. Qed.

(** ** White-space collapse *)

Lemma drop_while_idemp f s : drop_while f (drop_while f s) = drop_while f s.
Proof.
  induction s as [|c t IH]; simpl; [done|].
  destruct (f c) eqn:E; [done|]. simpl. by rewrite E.
Qed.

Lemma rstrip_by_idemp f s : rstrip_by f (rstrip_by f s) = rstrip_by f s.
Proof.
  unfold rstrip_by. by rewrite reverse_involutive, drop_while_idemp.
Qed.

Lemma drop_while_suffix f s : ∃ h, s = h ++ drop_while f s.
Proof.
  induction s as [|c t [h IH]]; simpl; [by exists []|].
  destruct (f c); [|by exists []]. exists (c :: h). simpl. by f_equal.
Qed.

Lemma rstrip_by_prefix f s : ∃ tl, s = rstrip_by f s ++ tl.
Proof.
  unfold rstrip_by. destruct (drop_while_suffix f (reverse s)) as [h Hh].
  exists (reverse h).
  rewrite <- reverse_app, <- Hh. by rewrite reverse_involutive.
Qed.

Lemma drop_while_head f s c t : drop_while f s = c :: t → f c = false.
Proof.
  induction s as [|x s IH]; simpl; [done|].
  destruct (f x) eqn:E; [done|]. by intros [= <- <-].
Qed.

Lemma drop_while_id f c t : f c = false → drop_while f (c :: t) = c :: t.
Proof. intros H. simpl. by rewrite H. Qed.

(** [strip] twice is [strip] once. *)
Lemma strip_by_idemp f s : strip_by f (strip_by f s) = strip_by f s.
Proof.
  unfold strip_by, lstrip_by.
  destruct (rstrip_by f (drop_while f s)) as [|c t] eqn:E; [done|].
  assert (f c = false) as Hc.
  { destruct (rstrip_by_prefix f (drop_while f s)) as [tl Htl].
    rewrite E in Htl. simpl in Htl. by eapply drop_while_head. }
  rewrite drop_while_id by done. rewrite <- E. apply rstrip_by_idemp.
Qed.

Lemma tidy_weaken b s : tidy b s = true → tidy false s = true.
Proof. destruct s as [|c t], b; simpl; try done. destruct (is_space c); done. Qed.

Lemma tidy_ws_sub b s : tidy b (ws_sub b s) = true.
Proof.
  revert b. induction s as [|c t IH]; intros b; simpl; [done|].
  destruct (is_space c) eqn:E.
  - destruct b; [apply IH|]. simpl.
    change (is_space " ") with true. simpl. apply IH.
  - simpl. rewrite E. apply IH.
Qed.

Lemma ws_sub_tidy b s : tidy b s = true → ws_sub b s = s.
Proof.
  revert b. induction s as [|c t IH]; intros b; simpl; [done|].
  destruct (is_space c) eqn:E.
  - destruct b; simpl; [done|]. unfold chr_eqb.
    case_bool_decide as Hc; simpl; [|done]. subst c. intros H.
    f_equal. by apply IH.
  - intros H. f_equal. by apply IH.
Qed.

Lemma tidy_drop_while b s :
  tidy b s = true → tidy false (drop_while is_space s) = true.
Proof.
  revert b. induction s as [|c t IH]; intros b; simpl; [done|].
  destruct (is_space c) eqn:E.
  - intros [[_ _]%andb_prop H]%andb_prop. by eapply IH.
  - intros H. simpl. by rewrite E.
Qed.

Lemma tidy_app_l b s1 s2 : tidy b (s1 ++ s2) = true → tidy b s1 = true.
Proof.
  revert b. induction s1 as [|c t IH]; intros b; simpl; [done|].
  destruct (is_space c).
  - intros [H1 H2]%andb_prop. rewrite H1. simpl. by eapply IH.
  - apply IH.
Qed.

Lemma tidy_ws_collapse s : tidy false (ws_collapse s) = true.
Proof.
  unfold ws_collapse, strip, strip_by, lstrip_by.
  destruct (rstrip_by_prefix is_space (drop_while is_space (ws_sub false s)))
    as [tl Htl].
  eapply tidy_app_l. rewrite <- Htl.
  eapply tidy_drop_while, tidy_ws_sub.
Qed.

(** The collapse of white space is idempotent. *)
Lemma ws_collapse_idemp s : ws_collapse (ws_collapse s) = ws_collapse s.
Proof.
  unfold ws_collapse at 1. rewrite (ws_sub_tidy false) by apply tidy_ws_collapse.
  unfold ws_collapse, strip. apply strip_by_idemp.
Qed.

Lemma strip_ws_collapse s : strip (ws_collapse s) = ws_collapse s.
Proof. unfold ws_collapse, strip. apply strip_by_idemp. Qed.




(** C9: the rename loop of garysusan_rename_episode_files.py compares the
    normalized title with the title after the removal of the bracket id, not
    with the raw title.  In the season directory of the scenario the file
    whose title differs from its normalized title by the bracket id alone is
    not renamed: [main] plans nothing and changes nothing. *)
Theorem bracket_id_only_title_is_not_renamed :
  garysusan.candidate_prefixes "Foundations" = [("Foundations" : str)] ∧
  (group "title"
     <$> re_match garysusan.EP_FILE_RE
           "GarySusan - S01E01 - Sugar Push [1516845].mp4")
    = Some ("Sugar Push [1516845]" : str) ∧
  garysusan.normalize ["Foundations" : str] "Sugar Push [1516845]"
    = ("Sugar Push" : str) ∧
  garysusan.planned_rename ["Foundations" : str]
    "GarySusan - S01E01 - Sugar Push [1516845].mp4" = None ∧
  garysusan.main "/g" true (World c9_fs [] []) = (World c9_fs [] [], Ok []).
Proof. repeat split; by vm_compute. Qed.

(** The scenario of the specification: with the collection prefix in the
    title the rename is planned, and the bracket id goes with it. *)
Lemma garysusan_scenario :
  garysusan.planned_rename (garysusan.candidate_prefixes "Foundations")
    "GarySusan - S01E01 - Foundations - Sugar Push [1516845].mp4"
    = Some ("GarySusan - S01E01 - Sugar Push.mp4" : str).
Proof. by vm_compute. Qed.

(** What the loop does decide on. *)
Lemma planned_rename_Some prefixes fn new_fn :
  garysusan.planned_rename prefixes fn = Some new_fn →
  ∃ fm, re_match garysusan.EP_FILE_RE fn = Some fm ∧
    garysusan.normalize prefixes (group "title" fm)
      ≠ garysusan.bracket_stripped (group "title" fm).
Proof.
  unfold garysusan.planned_rename. destruct (negb _); [done|].
  destruct (re_match _ fn) as [fm|]; [|done].
  case_bool_decide; [done|]. intros _. by exists fm.
Qed.

(** ** The search for the original of a variant *)

Lemma build_by_base_lookup keys b :
  default [] (promote.build_by_base keys !! b)
    = filter (λ k, basename k = b) keys.
Proof.
  unfold promote.build_by_base.
  induction keys as [|k keys IH] using rev_ind; [done|].
  rewrite foldl_snoc, filter_app, filter_cons, filter_nil.
  destruct (decide (basename k = b)) as [->|Hne].
  - rewrite lookup_insert_eq. simpl. by rewrite IH.
  - rewrite lookup_insert_ne by done. by rewrite IH, app_nil_r.
Qed.

Section find_original.
Import promote.
Context (fs : fsys) (root variants_dir : str) (fallback : bool) (rel : str).

Let idx := build_original_index fs root variants_dir.
Let by_base := build_by_base (elements (dom idx)).
Let d := dir_full root variants_dir rel.

Lemma structured_step_Found p :
  structured_step fs root variants_dir rel = Found p →
  ∃ m c, re_match SXXEXX_PREFIX (basename (join root rel)) = Some m ∧
         prefix_candidates fs d (expected_prefix m) = [c] ∧ p = join d c.
Proof.
  unfold structured_step. fold d.
  destruct (re_match _ _) as [m|]; [|done].
  destruct (isdir _ _); [|done].
  destruct (prefix_candidates _ _ _) as [|c [|c' cs]] eqn:E; try done.
  intros [= <-]. by exists m, c.
Qed.

Lemma structured_step_Ambiguous cands :
  structured_step fs root variants_dir rel = Ambiguous cands →
  2 ≤ length cands ∧
  ∃ m, re_match SXXEXX_PREFIX (basename (join root rel)) = Some m ∧
       cands = prefix_candidates fs d (expected_prefix m).
Proof.
  unfold structured_step. fold d.
  destruct (re_match _ _) as [m|]; [|done].
  destruct (isdir _ _); [|done].
  destruct (prefix_candidates _ _ _) as [|c [|c' cs]] eqn:E; try done.
  intros [= <-]. split; [simpl; lia|]. by exists m.
Qed.

Lemma structured_step_many m :
  re_match SXXEXX_PREFIX (basename (join root rel)) = Some m →
  isdir fs (canon d) = true →
  2 ≤ length (prefix_candidates fs d (expected_prefix m)) →
  structured_step fs root variants_dir rel
    = Ambiguous (prefix_candidates fs d (expected_prefix m)).
Proof.
  unfold structured_step. fold d. intros -> ->.
  destruct (prefix_candidates _ _ _) as [|c [|c' cs]]; simpl; [lia..|done].
Qed.

Lemma basename_step_Found p :
  basename_step root idx by_base rel = Found p →
  ∃ c, occurrences_in_index idx root rel = [c] ∧ idx !! c = Some p.
Proof.
  unfold basename_step, by_base, occurrences_in_index.
  rewrite build_by_base_lookup.
  destruct (filter _ _) as [|c [|c' cs]]; try done.
  destruct (idx !! c) eqn:E; [|done]. intros [= <-]. by exists c.
Qed.

Lemma basename_step_many :
  length (occurrences_in_index idx root rel) ≠ 1 →
  basename_step root idx by_base rel = NotFound.
Proof.
  unfold basename_step, by_base, occurrences_in_index.
  rewrite build_by_base_lookup.
  by destruct (filter _ _) as [|c [|c' cs]].
Qed.

Lemma find_original_Found p :
  find_original fs root variants_dir fallback idx by_base rel = Found p →
  idx !! candidate_rel variants_dir rel = Some p
  ∨ (idx !! candidate_rel variants_dir rel = None ∧
     structured_step fs root variants_dir rel = Found p)
  ∨ (idx !! candidate_rel variants_dir rel = None ∧
     structured_step fs root variants_dir rel = NotFound ∧
     fallback = true ∧ basename_step root idx by_base rel = Found p).
Proof.
  unfold find_original.
  destruct (idx !! candidate_rel variants_dir rel); [intros [= <-]; by left|].
  destruct (structured_step _ _ _ _) eqn:E; [by right; left|done|].
  destruct fallback; [|done]. intros H. by right; right.
Qed.

Lemma find_original_Ambiguous cands :
  find_original fs root variants_dir fallback idx by_base rel
    = Ambiguous cands ↔
  idx !! candidate_rel variants_dir rel = None ∧
  structured_step fs root variants_dir rel = Ambiguous cands.
Proof.
  unfold find_original.
  destruct (idx !! candidate_rel variants_dir rel);
    [split; [done|by intros [??]]|].
  destruct (structured_step _ _ _ _) eqn:E;
    [split; [done|by intros [??]]|split; [done|by intros [??]]|].
  split; [|by intros [??]].
  destruct fallback; [|done].
  unfold basename_step. by repeat case_match.
Qed.
End find_original.

(** C2 (as amended).  The search of [plan_promotions] for the original of a
    variant never picks among several candidates.  A path found by the
    structured step is the one non-variant .mp4 file with the expected
    prefix in the directory; with two or more such files the step ends the
    search as Ambiguous, with all of them listed.  A path found by the
    basename fallback belongs to the one index key with the expected bare
    file name; with two or more such keys, as with none, the fallback finds
    nothing and the variant is reported as having no matching original. *)
Theorem find_original_never_picks_among_candidates
    (fs : fsys) (root variants_dir : str) (fallback : bool) (rel : str) :
  let idx := promote.build_original_index fs root variants_dir in
  let by_base := promote.build_by_base (elements (dom idx)) in
  let d := promote.dir_full root variants_dir rel in
  let out :=
    promote.find_original fs root variants_dir fallback idx by_base rel in
  (∀ p, promote.structured_step fs root variants_dir rel = promote.Found p →
     ∃ m c,
       re_match promote.SXXEXX_PREFIX (basename (join root rel)) = Some m ∧
       promote.prefix_candidates fs d (promote.expected_prefix m) = [c] ∧
       p = join d c) ∧
  (∀ m, re_match promote.SXXEXX_PREFIX (basename (join root rel)) = Some m →
     isdir fs (canon d) = true →
     2 ≤ length (promote.prefix_candidates fs d (promote.expected_prefix m)) →
     promote.structured_step fs root variants_dir rel
       = promote.Ambiguous
           (promote.prefix_candidates fs d (promote.expected_prefix m))) ∧
  (∀ cands, out = promote.Ambiguous cands ↔
     idx !! promote.candidate_rel variants_dir rel = None ∧
     promote.structured_step fs root variants_dir rel
       = promote.Ambiguous cands) ∧
  (∀ p, promote.basename_step root idx by_base rel = promote.Found p →
     ∃ c, occurrences_in_index idx root rel = [c] ∧ idx !! c = Some p) ∧
  (length (occurrences_in_index idx root rel) ≠ 1 →
     promote.basename_step root idx by_base rel = promote.NotFound) ∧
  (∀ p, out = promote.Found p →
     idx !! promote.candidate_rel variants_dir rel = Some p
     ∨ (idx !! promote.candidate_rel variants_dir rel = None ∧
        promote.structured_step fs root variants_dir rel = promote.Found p)
     ∨ (idx !! promote.candidate_rel variants_dir rel = None ∧
        promote.structured_step fs root variants_dir rel = promote.NotFound ∧
        fallback = true ∧
        promote.basename_step root idx by_base rel = promote.Found p)).
Proof.
  intros idx by_base d out.
  split; [apply structured_step_Found|].
  split; [apply structured_step_many|].
  split; [apply find_original_Ambiguous|].
  split; [apply basename_step_Found|].
  split; [apply basename_step_many|apply find_original_Found].
Qed.

Lemma find_original_never_picks_among_candidates_witness :
  promote.structured_step c2_scenario_fs "/r" "_variants"
    "_variants/Cat/Coll/Cat - S02E05 - X [99].plex-appletv.mp4"
    = promote.Found "/r/Cat/Coll/Cat - S02E05 - Y.mp4" ∧
  ∃ m c,
    re_match promote.SXXEXX_PREFIX
      (basename (join "/r"
         "_variants/Cat/Coll/Cat - S02E05 - X [99].plex-appletv.mp4")) = Some m ∧
    promote.prefix_candidates c2_scenario_fs
      (promote.dir_full "/r" "_variants"
         "_variants/Cat/Coll/Cat - S02E05 - X [99].plex-appletv.mp4")
      (promote.expected_prefix m) = [c] ∧
    ("/r/Cat/Coll/Cat - S02E05 - Y.mp4" : str)
      = join (promote.dir_full "/r" "_variants"
                "_variants/Cat/Coll/Cat - S02E05 - X [99].plex-appletv.mp4") c.
Proof.
  split; [by vm_compute|].
  apply (proj1 (find_original_never_picks_among_candidates
                  c2_scenario_fs "/r" "_variants" true
                  "_variants/Cat/Coll/Cat - S02E05 - X [99].plex-appletv.mp4")).
  by vm_compute.
Defined.

(** C2 counterexample: in [c2_fs] the expected bare file name of the variant
    occurs twice in the index; the basename fallback does not answer
    Ambiguous, the search ends as NotFound and the variant is reported as
    having no matching original. *)
Lemma basename_fallback_downgrades_to_not_found :
  let idx := promote.build_original_index c2_fs "/r" "_variants" in
  length (occurrences_in_index idx "/r" "_variants/C/Ep.plex-appletv.mp4") = 2 ∧
  promote.find_original c2_fs "/r" "_variants" true idx
    (promote.build_by_base (elements (dom idx)))
    "_variants/C/Ep.plex-appletv.mp4" = promote.NotFound ∧
  promote.plan_promotions c2_fs "/r" "_variants" "_replaced_originals" true
    = {| promote.plan := [];
         promote.problems :=
           [ ("no matching original for variant" : str,
              [("/r/_variants/C/Ep.plex-appletv.mp4" : str)]) ] |}.
Proof. repeat split; by vm_compute. Qed.

(** [find_source_file] of reorg_plex_tv.py has two outcomes only, a path or
    nothing: with two downloads that start with the base of the permalink it
    returns the first of the listing. *)
Lemma find_source_file_takes_first_match :
  length
    (filter (λ fn : str, startswith fn (reorg.permalink_to_base "sugar-push-mp4") = true)
            (listdir c2_reorg_fs "/v/Basics")) = 2 ∧
  is_Some (reorg.find_source_file c2_reorg_fs "/v" "Basics" "sugar-push-mp4" true).
Proof. split; [by vm_compute|]. vm_compute. by eexists. Qed.

(** ** Directory listings *)

Lemma strip_head_Some p s r : strip_head p s = Some r ↔ s = p ++ r.
Proof.
  revert s. induction p as [|a p IH]; intros s; simpl.
  - split; [by intros [= ->]|by intros ->].
  - destruct s as [|b s]; [done|]. unfold chr_eqb.
    case_bool_decide as E.
    + subst b. rewrite IH. split; [by intros ->|by intros [= ->]].
    + split; [done|]. by intros [= ? _].
Qed.

Lemma startswith_slash_entry n : "/"%char ∉ n → startswith n "/" = false.
Proof.
  destruct n as [|c n]; [done|]. simpl. unfold chr_eqb.
  case_bool_decide; [|done]. subst c. intros H. destruct H. left.
Qed.

Lemma join_entry d n : d ≠ [] → entry n → join d n = dir_prefix d ++ n.
Proof.
  intros Hd [_ Hn]. unfold join, dir_prefix.
  rewrite startswith_slash_entry by done.
  rewrite bool_decide_eq_false_2 by done. cbn [orb].
  destruct (endswith d "/"); [done|]. by rewrite <- app_assoc.
Qed.

Lemma join_nonempty d n : d ≠ [] → entry n → join d n ≠ [].
Proof.
  intros Hd Hn. rewrite join_entry by done. unfold dir_prefix.
  destruct (endswith d "/"); by destruct d.
Qed.

Lemma elem_of_listdir fs d n :
  n ∈ listdir fs d ↔ entry n ∧ is_Some (fs !! (dir_prefix d ++ n)).
Proof.
  unfold listdir, entry. rewrite list_elem_of_omap. split.
  - intros (k & Hk%elem_of_elements%elem_of_dom & Hn).
    unfold entry_name in Hn.
    destruct (strip_head _ k) as [name|] eqn:E; [|done].
    apply strip_head_Some in E as ->.
    destruct (bool_decide (name ≠ [])) eqn:E1; [|done].
    destruct (bool_decide ("/"%char ∈ name)) eqn:E2; [done|].
    simpl in Hn. injection Hn as ->.
    apply bool_decide_eq_true in E1. apply bool_decide_eq_false in E2. done.
  - intros [[Hn1 Hn2] Hk]. exists (dir_prefix d ++ n).
    split; [by apply elem_of_elements, elem_of_dom|].
    unfold entry_name.
    rewrite (proj2 (strip_head_Some _ _ n)) by done.
    rewrite bool_decide_eq_true_2 by done.
    by rewrite bool_decide_eq_false_2 by done.
Qed.

Lemma elem_of_sorted x l : x ∈ sorted l ↔ x ∈ l.
Proof. unfold sorted. by rewrite merge_sort_Permutation. Qed.

Lemma sorted_nil : sorted [] = [].
Proof. done. Qed.

Lemma isfile_true fs p : isfile fs p = true ↔ ∃ c, fs !! p = Some (File c).
Proof.
  unfold isfile. destruct (fs !! p) as [[c|]|]; split; try done.
  - by exists c.
  - by intros [? ?].
  - by intros [? ?].
Qed.

Lemma elem_of_videos_in fs d k :
  d ≠ [] →
  k ∈ videos_in fs d ↔
  ∃ fn, entry fn ∧ k = join d fn ∧ isfile fs k = true ∧ is_video k = true.
Proof.
  intros Hd. unfold videos_in.
  rewrite elem_of_sorted, list_elem_of_filter, list_elem_of_fmap. split.
  - intros [[Hf Hv]%andb_prop (fn & -> & [Hfn _]%elem_of_listdir)].
    by exists fn.
  - intros (fn & Hfn & -> & Hf & Hv). split; [by rewrite Hf, Hv|].
    exists fn. split; [done|]. apply elem_of_listdir. split; [done|].
    rewrite <- join_entry by done.
    apply isfile_true in Hf as [c ->]. by eexists.
Qed.

(** * Further properties of the scripts *)

(** ** [safe_component] *)

Lemma elem_of_drop_while f (s : str) c : c ∈ drop_while f s → c ∈ s.
Proof.
  destruct (drop_while_suffix f s) as [h Hh]. intros H. rewrite Hh.
  apply elem_of_app. by right.
Qed.

Lemma elem_of_rstrip_by f (s : str) c : c ∈ rstrip_by f s → c ∈ s.
Proof.
  destruct (rstrip_by_prefix f s) as [tl Htl]. intros H. rewrite Htl.
  apply elem_of_app. by left.
Qed.

Lemma elem_of_ws_sub b s c : c ∈ ws_sub b s → c ∈ s ∨ c = " "%char.
Proof.
  revert b. induction s as [|x s IH]; intros b; simpl.
  - by intros ?%elem_of_nil.
  - destruct (is_space x).
    + destruct b.
      * intros [?|?]%IH; [left; by right|by right].
      * intros [->|[?|?]%IH]%elem_of_cons; [by right|left; by right|by right].
    + intros [->|[?|?]%IH]%elem_of_cons; [left; by left|left; by right|by right].
Qed.

Lemma elem_of_ws_collapse s c : c ∈ ws_collapse s → c ∈ s ∨ c = " "%char.
Proof.
  unfold ws_collapse, strip, strip_by, lstrip_by.
  intros H%elem_of_rstrip_by%elem_of_drop_while. by eapply elem_of_ws_sub.
Qed.

Lemma safe_component_valid s c :
  c ∈ safe_component s → is_invalid_fs c = false.
Proof.
  unfold safe_component.
  intros [[x [-> Hx]]%list_elem_of_fmap| ->]%elem_of_ws_collapse; [|done].
  by destruct (is_invalid_fs x) eqn:E.
Qed.

Lemma map_valid_id (s : str) :
  (∀ c, c ∈ s → is_invalid_fs c = false) →
  map (λ c, if is_invalid_fs c then " "%char else c) s = s.
Proof.
  induction s as [|x s IH]; intros H; simpl; [done|].
  rewrite (H x) by left. f_equal. apply IH. intros c Hc. apply H. by right.
Qed.

(** X1.  A component made by [safe_component] holds none of the characters
    that are invalid in a file name (so no slash: it stays one path
    component), has no white space at either end and none but single spaces
    inside; making it safe a second time changes nothing. *)
Theorem safe_component_is_clean_and_stable (s : str) :
  (∀ c, c ∈ safe_component s → is_invalid_fs c = false) ∧
  ("/"%char ∉ safe_component s) ∧
  tidy false (safe_component s) = true ∧
  strip (safe_component s) = safe_component s ∧
  safe_component (safe_component s) = safe_component s.
Proof.
  split; [apply safe_component_valid|]. split.
  { intros H%safe_component_valid. done. }
  split; [apply tidy_ws_collapse|]. split; [apply strip_ws_collapse|].
  unfold safe_component at 1.
  rewrite map_valid_id by apply safe_component_valid.
  unfold safe_component. apply ws_collapse_idemp.
Qed.

(** ** The conflict list of reorg_plex_tv.py *)

(** X2.  The conflict list of the destination check names a destination
    exactly when two or more planned operations target it, and names it
    once. *)
Theorem conflicts_are_the_destinations_planned_twice
    (pl : list (reorg.Entry * str * str)) :
  (∀ d, d ∈ reorg.conflicts pl ↔ 2 ≤ occurrences d pl.*2) ∧
  NoDup (reorg.conflicts pl).
Proof.
  unfold reorg.conflicts. split.
  - intros d. rewrite list_elem_of_fmap. split.
    + intros [[d' n] [-> Hn%elem_of_map_to_list]]. simpl.
      apply map_lookup_filter_Some in Hn as [Hn Hgt]. simpl in Hgt.
      rewrite dst_counts_lookup in Hn. destruct (decide _); simplify_eq. lia.
    + intros Hd. exists (d, occurrences d pl.*2). split; [done|].
      apply elem_of_map_to_list, map_lookup_filter_Some. split; [|simpl; lia].
      rewrite dst_counts_lookup. destruct (decide _); [lia|done].
  - apply NoDup_fst_map_to_list.
Qed.

(** ** The planning loop of reorg_plex_tv.py: accounting and seasons *)

Lemma plan_step_accounts fs root show dirs order st e :
  ∃ x, (reorg.planned (reorg.plan_step fs root show dirs order st e)).*1.*1
         ++ (reorg.missing (reorg.plan_step fs root show dirs order st e)).*1
         ++ (reorg.dup_permalink
               (reorg.plan_step fs root show dirs order st e)).*1
       ≡ₚ x :: ((reorg.planned st).*1.*1 ++ (reorg.missing st).*1
                  ++ (reorg.dup_permalink st).*1) ∧ x = e.
Proof.
  exists e. split; [|done]. unfold reorg.plan_step, reorg.add_missing.
  repeat case_match; simpl; rewrite ?fmap_app; simpl;
    solve_Permutation.
Qed.

(** X3.  The planning loop accounts for every manifest entry exactly once:
    the entries of the planned operations, of the missing list and of the
    duplicate list together are the manifest entries, up to order. *)
Theorem every_manifest_entry_is_accounted_for
    (fs : fsys) (root show : str) (entries : list reorg.Entry) :
  let st := reorg.plan_entries fs root show entries in
  (reorg.planned st).*1.*1 ++ (reorg.missing st).*1
    ++ (reorg.dup_permalink st).*1 ≡ₚ entries.
Proof.
  unfold reorg.plan_entries.
  generalize (reorg.existing_dirs fs root) (reorg.season_order entries).
  intros dirs order. simpl.
  induction entries as [|e entries IH] using rev_ind; [done|].
  rewrite foldl_snoc.
  destruct (plan_step_accounts fs root show dirs order
              (foldl (reorg.plan_step fs root show dirs order)
                     reorg.planning_start entries) e) as (x & Hx & ->).
  rewrite Hx, IH. by rewrite Permutation_cons_append.
Qed.

Lemma season_order_snoc entries e :
  reorg.season_order (entries ++ [e])
    = match reorg.collection e with
      | Some ((_ :: _) as c) =>
          if bool_decide (c ∈ reorg.season_order entries)
          then reorg.season_order entries
          else reorg.season_order entries ++ [c]
      | _ => reorg.season_order entries
      end.
Proof. unfold reorg.season_order. by rewrite foldl_snoc. Qed.

Lemma season_order_NoDup entries : NoDup (reorg.season_order entries).
Proof.
  induction entries as [|e entries IH] using rev_ind; [constructor|].
  rewrite season_order_snoc. destruct (reorg.collection e) as [[|c cs]|]; try done.
  case_bool_decide as Hin; [done|]. apply NoDup_app.
  split; [done|]. split; [|apply NoDup_singleton].
  by intros x Hx ->%list_elem_of_singleton.
Qed.

Lemma season_order_elem entries c :
  c ∈ reorg.season_order entries ↔
  c ≠ [] ∧ ∃ e, e ∈ entries ∧ reorg.collection e = Some c.
Proof.
  induction entries as [|e entries IH] using rev_ind.
  - split; [by intros ?%elem_of_nil|]. by intros (_ & ? & ?%elem_of_nil & _).
  - rewrite season_order_snoc.
    assert (c ∈ reorg.season_order entries →
            c ≠ [] ∧ ∃ x, x ∈ entries ++ [e] ∧ reorg.collection x = Some c)
      as Hold.
    { intros (? & x & ? & ?)%IH. split; [done|]. exists x.
      split; [|done]. apply elem_of_app. by left. }
    assert (c ≠ [] → ∀ x, x ∈ entries → reorg.collection x = Some c →
            c ∈ reorg.season_order entries) as Hback.
    { intros ? x ? ?. apply IH. split; [done|]. by exists x. }
    destruct (reorg.collection e) as [[|a cs]|] eqn:E.
    + split; [done|].
      intros (Hc & x & [?| ->%list_elem_of_singleton]%elem_of_app & Hx);
        [by eapply Hback|congruence].
    + case_bool_decide as Hin.
      * split; [done|].
        intros (Hc & x & [?| ->%list_elem_of_singleton]%elem_of_app & Hx);
          [by eapply Hback|]. congruence.
      * rewrite elem_of_app, list_elem_of_singleton. split.
        -- intros [?| ->]; [by apply Hold|]. split; [done|]. exists e.
           split; [|done]. apply elem_of_app. right. by left.
        -- intros (Hc & x & [?| ->%list_elem_of_singleton]%elem_of_app & Hx);
             [left; by eapply Hback|right; congruence].
    + split; [done|].
      intros (Hc & x & [?| ->%list_elem_of_singleton]%elem_of_app & Hx);
        [by eapply Hback|congruence].
Qed.

Lemma season_order_prefix l1 l2 :
  reorg.season_order l1 `prefix_of` reorg.season_order (l1 ++ l2).
Proof.
  induction l2 as [|e l2 IH] using rev_ind; [by rewrite app_nil_r|].
  rewrite app_assoc, season_order_snoc.
  destruct (reorg.collection e) as [[|c cs]|]; try done.
  case_bool_decide; [done|]. by apply prefix_app_r.
Qed.

Lemma season_num_lookup order c :
  c ∈ order →
  1 ≤ reorg.season_num order c ≤ length order ∧
  order !! (reorg.season_num order c - 1) = Some c.
Proof.
  intros Hc. unfold reorg.season_num.
  destruct (list_find (λ x, x = c) order) as [[i x]|] eqn:E.
  - apply list_find_Some in E as (Hi & -> & _).
    pose proof (lookup_lt_Some _ _ _ Hi). simpl.
    rewrite Nat.sub_0_r. split; [lia|done].
  - apply list_find_None in E. rewrite Forall_forall in E. by destruct (E c Hc).
Qed.

(** X4.  Seasons are numbered by first appearance of a collection in the
    manifest: the season order lists every non-empty collection once; the
    number of a collection is its 1-based place in that order; and entries
    appended to the manifest leave the order of the earlier collections, and
    so their numbers, as they were. *)
Theorem seasons_are_numbered_by_first_appearance
    (entries more : list reorg.Entry) :
  NoDup (reorg.season_order entries) ∧
  (∀ c, c ∈ reorg.season_order entries ↔
        c ≠ [] ∧ ∃ e, e ∈ entries ∧ reorg.collection e = Some c) ∧
  (∀ c, c ∈ reorg.season_order entries →
        1 ≤ reorg.season_num (reorg.season_order entries) c
          ≤ length (reorg.season_order entries) ∧
        reorg.season_order entries
          !! (reorg.season_num (reorg.season_order entries) c - 1) = Some c) ∧
  (∀ c, c ∈ reorg.season_order entries →
        reorg.season_num (reorg.season_order (entries ++ more)) c
          = reorg.season_num (reorg.season_order entries) c).
Proof.
  split; [apply season_order_NoDup|]. split; [apply season_order_elem|].
  split; [intros c; apply season_num_lookup|].
  intros c Hc. destruct (season_order_prefix entries more) as [k Hk].
  destruct (season_num_lookup _ _ Hc) as [Hr Hl].
  assert (c ∈ reorg.season_order (entries ++ more)) as Hc'.
  { rewrite Hk. apply elem_of_app. by left. }
  destruct (season_num_lookup _ _ Hc') as [Hr' Hl'].
  pose proof (season_order_NoDup (entries ++ more)) as Hnd.
  assert (reorg.season_order (entries ++ more)
            !! (reorg.season_num (reorg.season_order entries) c - 1) = Some c)
    as Hl2.
  { rewrite Hk. by apply lookup_app_l_Some. }
  pose proof (NoDup_lookup _ _ _ _ Hnd Hl' Hl2). lia.
Qed.

(** ** Prefixes and suffixes *)

Lemma startswith_true s p : startswith s p = true ↔ ∃ r, s = p ++ r.
Proof.
  revert s. induction p as [|a p IH]; intros s.
  - split; [by exists s|by destruct s].
  - destruct s as [|b s]; simpl; [split; [done|by intros [? ?]]|].
    unfold chr_eqb. rewrite andb_true_iff, bool_decide_eq_true, IH. split.
    + intros [-> [r ->]]. by exists r.
    + intros [r [= -> ->]]. split; [done|by exists r].
Qed.

Lemma endswith_true s p : endswith s p = true ↔ ∃ h, s = h ++ p.
Proof.
  unfold endswith. rewrite startswith_true. split.
  - intros [r Hr]. exists (reverse r).
    apply (inj reverse). by rewrite reverse_app, reverse_involutive.
  - intros [h ->]. exists (reverse h). by rewrite reverse_app.
Qed.

Lemma endswith_join a b : endswith (join a b) b = true.
Proof.
  apply endswith_true. unfold join. repeat case_match.
  - by exists [].
  - by exists a.
  - exists (a ++ "/"). by rewrite <- app_assoc.
Qed.

Lemma endswith_trans s b p :
  endswith s b = true → endswith b p = true → endswith s p = true.
Proof.
  rewrite !endswith_true. intros [h ->] [h' ->]. exists (h ++ h').
  by rewrite app_assoc.
Qed.

Lemma rsplit_None_entry b : "/"%char ∉ b → rsplit "/" b = None.
Proof.
  induction b as [|x b IH]; [done|]. simpl.
  intros [Hx Hb]%not_elem_of_cons. rewrite (IH Hb).
  unfold chr_eqb. by rewrite bool_decide_eq_false_2 by congruence.
Qed.

Lemma rsplit_entry a b :
  "/"%char ∉ b → rsplit "/" (a ++ "/"%char :: b) = Some (a, b).
Proof.
  intros Hb. induction a as [|x a IH]; simpl.
  - by rewrite rsplit_None_entry.
  - by rewrite IH.
Qed.

Lemma dir_prefix_slash d : ∃ d', dir_prefix d = d' ++ "/".
Proof.
  unfold dir_prefix. destruct (endswith d "/") eqn:E; [|by exists d].
  by apply endswith_true in E.
Qed.

(** The last component of a path made with an entry name is that name. *)
Lemma basename_join_entry d n : entry n → basename (join d n) = n.
Proof.
  intros Hn. destruct (decide (d = [])) as [->|Hd].
  - unfold join. rewrite startswith_slash_entry by apply Hn. simpl.
    unfold basename. by rewrite rsplit_None_entry by apply Hn.
  - rewrite join_entry by done. destruct (dir_prefix_slash d) as [d' ->].
    rewrite <- app_assoc. unfold basename.
    change (list_ascii_of_string "/" ++ n) with ("/"%char :: n).
    by rewrite rsplit_entry by apply Hn.
Qed.

(** ** [choose_collection_dir] and [find_source_file] *)

Lemma low_lookup (dirs : list str) k d :
  foldl (λ (m : gmap str str) d, <[str_lower d := d]> m) ∅ dirs !! k = Some d →
  d ∈ dirs ∧ str_lower d = k.
Proof.
  induction dirs as [|x dirs IH] using rev_ind; [done|].
  rewrite foldl_snoc. destruct (decide (str_lower x = k)) as [<-|Hne].
  - rewrite lookup_insert_eq. intros [= <-]. split; [|done].
    apply elem_of_app. right. by left.
  - rewrite lookup_insert_ne by done. intros [? ?]%IH. split; [|done].
    apply elem_of_app. by left.
Qed.

(** X5.  [choose_collection_dir] only ever answers with a directory that
    exists: its result is one of the existing directories, equal up to case
    to the collection name or to the name with its slashes replaced by a
    dash, a space or nothing; and a collection that is itself an existing
    directory is chosen as it is. *)
Theorem choose_collection_dir_is_existing (dirs : list str) (c : str) :
  (∀ d, reorg.choose_collection_dir dirs c = Some d →
     d ∈ dirs ∧
     ∃ c', c' ∈ [ c; replace_chr "/" "-" c; replace_chr "/" " " c;
                  replace_chr "/" "" c ] ∧
           str_lower d = str_lower c') ∧
  (c ∈ dirs → reorg.choose_collection_dir dirs c = Some c).
Proof.
  unfold reorg.choose_collection_dir. split.
  - intros d. case_bool_decide as Hc.
    { intros [= <-]. split; [done|]. exists c. split; [left|done]. }
    destruct (list_find _ _) as [[i x]|] eqn:E1.
    { intros [= <-]. apply list_find_Some in E1 as (Hi & Hx & _).
      split; [done|]. exists x. split; [|done].
      right. by eapply list_elem_of_lookup_2. }
    destruct (_ !! str_lower c) as [x|] eqn:E2.
    { intros [= <-]. apply low_lookup in E2 as [? ?]. split; [done|].
      exists c. split; [left|done]. }
    destruct (list_find (λ c0 : str, is_Some _) _) as [[i x]|] eqn:E3; [|done].
    intros [? ?]%low_lookup. split; [done|]. exists x. split; [|done].
    apply list_find_Some in E3 as (Hi & _). right.
    by eapply list_elem_of_lookup_2.
  - intros Hc. by rewrite bool_decide_eq_true_2.
Qed.

(** X6.  A source file found by [find_source_file] exists on disk and is an
    .mp4 file; when non-variants are preferred, its file name holds no
    .plex-appletv marker. *)
Theorem find_source_file_result_exists
    (fs : fsys) (root cdir permalink src : str) (prefer : bool) :
  root ≠ [] →
  reorg.find_source_file fs root cdir permalink prefer = Some src →
  path_exists fs src = true ∧ endswith src ".mp4" = true ∧
  (prefer = true → contains (basename src) ".plex-appletv" = false).
Proof.
  intros Hroot. unfold reorg.find_source_file.
  set (dpath := join root cdir).
  assert (dpath ≠ []) as Hd.
  { unfold dpath, join. repeat case_match; destruct root, cdir; done. }
  destruct (path_exists fs (join dpath _)) eqn:E.
  - destruct (prefer && _) eqn:E2; [done|]. intros [= <-].
    split; [done|]. split.
    + eapply endswith_trans; [apply endswith_join|].
      apply endswith_true. by eexists.
    + intros ->. done.
  - destruct (negb _); [done|].
    destruct (list_find _ _) as [[i fn]|] eqn:E1; [|done]. intros [= <-].
    apply list_find_Some in E1 as (Hi & (H1 & H2 & H3) & _).
    apply list_elem_of_lookup_2, elem_of_listdir in Hi as [Hfn Hk].
    split; [|split].
    + rewrite join_entry by done. by apply path_exists_true.
    + eapply endswith_trans; [apply endswith_join|done].
    + intros ->. by rewrite basename_join_entry.
Qed.

Lemma find_source_file_result_exists_witness :
  path_exists c2_reorg_fs "/v/Basics/sugar-push-b.mp4" = true ∧
  endswith ("/v/Basics/sugar-push-b.mp4" : str) ".mp4" = true ∧
  (true = true →
   contains (basename "/v/Basics/sugar-push-b.mp4") ".plex-appletv" = false).
Proof.
  apply (find_source_file_result_exists c2_reorg_fs "/v" "Basics"
           "sugar-push-mp4" "/v/Basics/sugar-push-b.mp4" true).
  - done.
  - by vm_compute.
Defined.

Lemma strip_by_ends f s :
  match strip_by f s with
  | [] => True
  | c :: t => f c = false ∧ ∀ x, last (c :: t) = Some x → f x = false
  end.
Proof.
  unfold strip_by, lstrip_by.
  destruct (rstrip_by f (drop_while f s)) as [|c t] eqn:E; [done|]. split.
  - destruct (rstrip_by_prefix f (drop_while f s)) as [tl Htl].
    rewrite E in Htl. simpl in Htl. by eapply drop_while_head.
  - intros x Hx. unfold rstrip_by in E.
    apply (f_equal reverse) in E. rewrite reverse_involutive in E.
    rewrite <- (reverse_involutive (c :: t)) in Hx.
    rewrite last_reverse in Hx.
    destruct (reverse (c :: t)) as [|y r] eqn:Er; [done|].
    simpl in Hx. injection Hx as ->. by eapply drop_while_head.
Qed.

(** X7.  The base name [permalink_to_base] derives from a permalink neither
    starts nor ends with a dash or an underscore. *)
Theorem permalink_base_has_no_outer_separators (permalink : str) :
  match reorg.permalink_to_base permalink with
  | [] => True
  | c :: t =>
      reorg.is_sep c = false ∧
      ∀ x, last (c :: t) = Some x → reorg.is_sep x = false
  end.
Proof. unfold reorg.permalink_to_base. apply strip_by_ends. Qed.

(** ** What the apply loop of reorg_plex_tv.py leaves alone *)

Lemma os_rename_frame src dst w w' r :
  os_rename src dst w = (w', r) →
  (∀ k, k ≠ src → k ≠ dst → w_fs w' !! k = w_fs w !! k) ∧
  (∀ e, r = Raise e → w' = w).
Proof.
  unfold os_rename. destruct (w_fs w !! src) as [[c|]|];
    [|by intros [= <- <-]..].
  destruct (negb _); [by intros [= <- <-]|].
  destruct (isdir _ _); [by intros [= <- <-]|].
  intros [= <- <-]. split; [|done]. intros k ? ?. simpl.
  by rewrite lookup_insert_ne, lookup_delete_ne by done.
Qed.

Lemma reorg_record_world a e src dst note w :
  (reorg.record a e src dst note w).1
    = World (w_fs w) (w_log w)
            (w_out (reorg.record a e src dst note w).1).
Proof. done. Qed.

(** A rename through [safe_rename] to a path that does not exist keeps
    every other entry of the file system. *)
Lemma reorg_safe_rename_keeps src dst w w' r :
  path_exists (w_fs w) dst = false →
  reorg.safe_rename src dst w = (w', r) →
  ∀ k x, w_fs w !! k = Some x → k ≠ src → w_fs w' !! k = Some x.
Proof.
  intros Hdst%path_exists_false.
  unfold reorg.safe_rename, ensure_parent, mbind, io_bind.
  destruct (makedirs _ w) as [w1 r1] eqn:E1.
  pose proof (makedirs_extends _ _ _ _ E1) as Hext.
  destruct r1 as [ [] | e1 ].
  - intros E2 k x Hk Hsrc.
    destruct (os_rename_frame _ _ _ _ _ E2) as [Hfr _].
    rewrite Hfr; [by eapply ext_keep|done|congruence].
  - intros [= <- <-] k x Hk _. by eapply ext_keep.
Qed.

Lemma reorg_apply_one_keeps root show order apply op w w' r :
  reorg.apply_one root show order apply op w = (w', r) →
  ∀ k x, w_fs w !! k = Some x → k ≠ op.1.2 → w_fs w' !! k = Some x.
Proof.
  destruct op as [[e src] dst].
  unfold reorg.apply_one, mbind, io_bind, os_path_exists, mret, io_ret.
  destruct (path_exists (w_fs w) src); cbn [negb].
  - set (alt := reorg.dst_of _ _ _ _ _).
    destruct (path_exists (w_fs w) dst) eqn:Ed; cbn [andb].
    + destruct (path_exists (w_fs w) alt) eqn:Ea; [by intros [= <- <-]|].
      destruct apply; [|by intros [= <- <-]].
      unfold try_except, mbind, io_bind.
      destruct (reorg.safe_rename src alt w) as [w1 r1] eqn:E1.
      pose proof (reorg_safe_rename_keeps _ _ _ _ _ Ea E1) as Hk.
      destruct r1 as [ [] | ex ]; [by intros [= <- <-]|].
      destruct (reorg.is_OSError ex); [|by intros [= <- <-]].
      destruct (reorg.is_FileNotFoundError ex); by intros [= <- <-].
    + destruct apply; [|by intros [= <- <-]].
      unfold try_except, mbind, io_bind.
      destruct (reorg.safe_rename src dst w) as [w1 r1] eqn:E1.
      pose proof (reorg_safe_rename_keeps _ _ _ _ _ Ed E1) as Hk.
      destruct r1 as [ [] | ex ]; [by intros [= <- <-]|].
      destruct (reorg.is_OSError ex); [|by intros [= <- <-]].
      destruct (reorg.is_FileNotFoundError ex); by intros [= <- <-].
  - destruct (path_exists (w_fs w) dst); by intros [= <- <-].
Qed.

Lemma reorg_apply_one_dry root show order op w w' r :
  reorg.apply_one root show order false op w = (w', r) →
  w_fs w' = w_fs w ∧ w_log w' = w_log w.
Proof.
  destruct op as [[e src] dst].
  unfold reorg.apply_one, mbind, io_bind, os_path_exists, mret, io_ret.
  destruct (path_exists (w_fs w) src); cbn [negb].
  - destruct (path_exists (w_fs w) dst); cbn [andb].
    + destruct (path_exists (w_fs w) _); by intros [= <- <-].
    + by intros [= <- <-].
  - destruct (path_exists (w_fs w) dst); by intros [= <- <-].
Qed.

(** X8.  The apply loop of reorg_plex_tv.py never overwrites or removes
    anything but the sources it moves: when the sources of the plan are
    regular files, every file and directory that exists before the loop at a
    path that is not the source of a planned operation is still there,
    unchanged, after it.  Without --apply the loop makes no system call and
    leaves the file system as it is. *)
Theorem reorg_apply_keeps_everything_but_sources
    (root show : str) (order : list str) (apply : bool)
    (pl : list (reorg.Entry * str * str)) (w w' : world) (r : result unit) :
  reorg.apply_planned root show order apply pl w = (w', r) →
  (Forall (λ op, isfile (w_fs w) op.1.2 = true) pl →
   ∀ k x, w_fs w !! k = Some x → k ∉ pl.*1.*2 → w_fs w' !! k = Some x) ∧
  (apply = false → w_fs w' = w_fs w ∧ w_log w' = w_log w).
Proof.
  intros E. split; [intros _; revert w E|revert w E].
  - induction pl as [|op pl IH]; intros w; simpl.
    { by intros [= <- <-]. }
    unfold mbind, io_bind.
    destruct (reorg.apply_one root show order apply op w) as [w1 r1] eqn:E1.
    pose proof (reorg_apply_one_keeps _ _ _ _ _ _ _ _ E1) as Hk1.
    destruct r1 as [ [] | e1 ].
    + intros E2 k x Hk [Hop Hpl]%not_elem_of_cons.
      apply (IH _ E2); [|done]. by apply Hk1.
    + intros [= <- <-] k x Hk [Hop Hpl]%not_elem_of_cons. by apply Hk1.
  - induction pl as [|op pl IH]; intros w; simpl.
    { by intros [= <- <-]. }
    unfold mbind, io_bind.
    destruct (reorg.apply_one root show order apply op w) as [w1 r1] eqn:E1.
    destruct r1 as [ [] | e1 ].
    + intros E2 ->. destruct (IH _ E2 eq_refl) as [-> ->].
      by apply reorg_apply_one_dry in E1.
    + intros [= <- <-] ->. by apply reorg_apply_one_dry in E1.
Qed.

Lemma reorg_apply_keeps_everything_but_sources_witness :
  w_fs (reorg.apply_planned "/v" "Show" ["Basics" : str] true
          [ (manifest_entry "Basics" "sugar-push-mp4" 1 "11",
             "/v/Basics/sugar-push.mp4" : str,
             "/v/TV Shows/Show/Season 01 - Basics/Show - S01E01 - Sugar Push.mp4" : str) ]
          c10_world).1 !! ("/v/Basics" : str) = Some Dir.
Proof.
  eapply (proj1 (reorg_apply_keeps_everything_but_sources "/v" "Show"
            ["Basics" : str] true _ c10_world _ _ (surjective_pairing _))).
  - repeat constructor.
  - vm_compute; reflexivity.
  - apply (bool_decide_unpack _). vm_compute; exact I.
Defined.

(** ** Promotion without a backup *)

(** X9.  With --delete-originals a promotion keeps no backup: when the
    variant is a regular file, the directory of the original exists and the
    original is not a directory, the promotion succeeds with one rename and
    nothing else; afterwards the original path holds the content of the
    variant, the variant path is gone and every other path is as before, so
    the former content of the original is in no new place.  A missing
    variant raises FileNotFoundError and changes nothing. *)
Theorem promote_one_delete_original_keeps_no_backup
    (p : promote.PlanItem) (w : world) :
  (path_exists (w_fs w) (promote.variant p) = false →
   promote.promote_one_delete_original p w
     = (w, Raise (FileNotFoundError (promote.variant p)))) ∧
  (∀ cv,
     w_fs w !! promote.variant p = Some (File cv) →
     isdir (w_fs w) (dirname (promote.original p)) = true →
     w_fs w !! promote.original p ≠ Some Dir →
     promote.variant p ≠ promote.original p →
     ∃ w', promote.promote_one_delete_original p w = (w', Ok ()) ∧
       w_log w' = w_log w
         ++ [SysRename (promote.variant p) (promote.original p)] ∧
       w_fs w' !! promote.original p = Some (File cv) ∧
       w_fs w' !! promote.variant p = None ∧
       ∀ k, k ≠ promote.original p → k ≠ promote.variant p →
            w_fs w' !! k = w_fs w !! k).
Proof.
  unfold promote.promote_one_delete_original, mbind, io_bind, os_path_exists,
    raise, ensure_parent.
  split.
  - by intros ->.
  - intros cv Hv Hd Ho Hne.
    rewrite (proj2 (path_exists_true _ _)) by eauto. cbn [negb].
    rewrite (makedirs_isdir _ w) by done.
    rewrite (os_rename_Ok _ _ cv); [|done| |by apply isdir_false].
    + eexists. split; [done|]. simpl. split; [done|].
      rewrite lookup_insert_eq. split; [done|].
      rewrite lookup_insert_ne, lookup_delete_eq by done. split; [done|].
      intros k ? ?. by rewrite lookup_insert_ne, lookup_delete_ne.
    + unfold parent_ok. rewrite Hd. by rewrite !orb_true_r.
Qed.

Lemma promote_one_delete_original_keeps_no_backup_witness :
  ∃ w', promote.promote_one_delete_original c4_item c4_world = (w', Ok ()) ∧
    w_log w' = w_log c4_world
      ++ [SysRename (promote.variant c4_item) (promote.original c4_item)] ∧
    w_fs w' !! promote.original c4_item = Some (File 2) ∧
    w_fs w' !! promote.variant c4_item = None ∧
    ∀ k, k ≠ promote.original c4_item → k ≠ promote.variant c4_item →
         w_fs w' !! k = w_fs c4_world !! k.
Proof.
  apply (proj2 (promote_one_delete_original_keeps_no_backup c4_item c4_world)
           2).
  - vm_compute; reflexivity.
  - vm_compute; reflexivity.
  - vm_compute. intros [=].
  - vm_compute. intros [=].
Defined.

(** X10.  The exit status of promote_plex_appletv_variants.py under
    --apply: the loop handles every plan item whatever happens to the
    earlier ones, each with its DONE or ERROR line in the order of the plan,
    and only then the script ends: normally when every line is DONE, with
    exit status 2 when at least one is ERROR. *)
Theorem promote_apply_exits_2_iff_some_error
    (delete_originals : bool) (plan : list promote.PlanItem) (w : world) :
  ∃ w' ls,
    w_out w' = w_out w ++ ls ∧ Forall2 promote_outcome plan ls ∧
    promote.apply_main delete_originals plan w
      = (w', if bool_decide (Forall (λ l, action l = ("DONE" : str)) ls)
             then Ok () else Raise (SystemExit "2")).
Proof.
  destruct (promote_apply_plan_outcomes delete_originals plan w)
    as (w' & ls & errors & E & Hout & Hls & ->).
  exists w', ls. split; [done|]. split; [done|].
  unfold promote.apply_main, mbind, io_bind. rewrite E.
  assert (length (filter (λ l, action l = ("ERROR" : str)) ls) = 0 ↔
          Forall (λ l, action l = ("DONE" : str)) ls) as Hiff.
  { clear E Hout. induction Hls as [|p l plan ls Hl Hls IH].
    - split; [constructor|done].
    - rewrite filter_cons, Forall_cons.
      destruct Hl as [-> | ->]; cbn [action].
      + case_decide as Hd; [done|]. rewrite IH.
        split; [by intros; split|by intros [_ ?]].
      + case_decide as Hd; [|done]. simpl. split; [done|]. by intros [[=] _]. }
  case_bool_decide as H0; case_bool_decide as H1; try done.
  - by apply Hiff in H0.
  - by apply Hiff in H1.
Qed.

(** ** The planning loop of promote_plex_appletv_variants.py *)



(** ** The season order of jtswing_single_show.py *)

Lemma jt_season_order_unfold cats :
  jtswing.season_order cats
    = append_unseen (λ _, true)
        (append_unseen (λ c, bool_decide (c ∈ cats)) []
           jtswing.PREFERRED_ORDER)
        (sorted cats).
Proof. reflexivity. Qed.

Lemma append_unseen_app ok acc l1 l2 :
  append_unseen ok acc (l1 ++ l2)
    = append_unseen ok (append_unseen ok acc l1) l2.
Proof. apply foldl_app. Qed.

Lemma append_unseen_prefix ok acc l : acc `prefix_of` append_unseen ok acc l.
Proof.
  revert acc. induction l as [|c l IH]; intros acc; simpl; [done|].
  destruct (ok c && negb (bool_decide (c ∈ acc))); [|apply IH].
  etrans; [|apply IH]. by apply prefix_app_r.
Qed.

Lemma append_unseen_NoDup ok acc l :
  NoDup acc → NoDup (append_unseen ok acc l).
Proof.
  revert acc. induction l as [|c l IH]; intros acc Hnd; simpl; [done|].
  apply IH. destruct (ok c); cbn [andb]; [|done].
  case_bool_decide as Hin; cbn [negb]; [done|].
  apply NoDup_app. split; [done|]. split; [|apply NoDup_singleton].
  by intros x Hx ->%list_elem_of_singleton.
Qed.

Lemma append_unseen_elem ok acc l x :
  x ∈ append_unseen ok acc l ↔ x ∈ acc ∨ (x ∈ l ∧ ok x = true).
Proof.
  revert acc. induction l as [|c l IH]; intros acc; simpl.
  - split; [by left|]. by intros [?|[?%elem_of_nil _]].
  - rewrite IH, elem_of_cons. destruct (ok c) eqn:Eo; cbn [andb].
    + case_bool_decide as Hin; cbn [negb].
      * split; [tauto|]. intros [?|[[->|?] ?]]; tauto.
      * rewrite elem_of_app, list_elem_of_singleton. split; [|tauto].
        intros [[?| ->]|?]; tauto.
    + split; [tauto|]. intros [?|[[->|?] ?]]; [tauto|congruence|tauto].
Qed.

Lemma jt_season_num_lookup order c :
  c ∈ order →
  1 ≤ jtswing.season_num order c ≤ length order ∧
  order !! (jtswing.season_num order c - 1) = Some c.
Proof. apply season_num_lookup. Qed.

Lemma jt_season_num_prefix acc order c :
  acc `prefix_of` order → c ∈ acc →
  jtswing.season_num order c = jtswing.season_num acc c.
Proof.
  intros [t ->] Hc. unfold jtswing.season_num.
  destruct (list_find (λ x, x = c) acc) as [[i x]|] eqn:E.
  - by rewrite (list_find_app_l _ _ _ _ _ E).
  - apply list_find_None in E. rewrite Forall_forall in E.
    by destruct (E c Hc).
Qed.

Lemma jt_season_num_lt acc order c d :
  acc `prefix_of` order → c ∈ acc → d ∉ acc → d ∈ order →
  jtswing.season_num order c < jtswing.season_num order d.
Proof.
  intros Hp Hc Hd Hdo. rewrite (jt_season_num_prefix _ _ _ Hp Hc).
  destruct (jt_season_num_lookup _ _ Hc) as [Hr _].
  destruct Hp as [t ->]. unfold jtswing.season_num at 2.
  assert (list_find (λ x, x = d) acc = None) as En.
  { apply list_find_None, Forall_forall. by intros x Hx ->. }
  rewrite (list_find_app_r _ _ _ En).
  destruct (list_find (λ x, x = d) t) as [[j y]|] eqn:E; simpl; [lia|].
  apply list_find_None in E. rewrite Forall_forall in E.
  apply elem_of_app in Hdo as [?|Hdt]; [done|]. by destruct (E d Hdt).
Qed.

(** Of two elements the loop appends, the one met first comes first. *)
Lemma append_unseen_before ok acc l1 c l2 d :
  ok c = true → d ∉ acc → d ∉ l1 → d ≠ c →
  d ∈ append_unseen ok acc (l1 ++ c :: l2) →
  jtswing.season_num (append_unseen ok acc (l1 ++ c :: l2)) c
    < jtswing.season_num (append_unseen ok acc (l1 ++ c :: l2)) d.
Proof.
  intros Hc Hda Hdl Hne Hd.
  change (c :: l2) with ([c] ++ l2) in *.
  rewrite app_assoc, append_unseen_app in *.
  eapply jt_season_num_lt; [apply append_unseen_prefix| | |done].
  - apply append_unseen_elem. right. split; [|done].
    apply elem_of_app. right. by left.
  - rewrite append_unseen_elem, elem_of_app, list_elem_of_singleton. tauto.
Qed.

(** X12.  The seasons of jtswing_single_show.py: the season order lists
    every category of the root once and nothing else, so every category has
    a season number between 1 and the number of seasons and the lookup of
    the number of a category never fails.  The categories of the preferred
    list come first, in the order of that list, and the other categories
    follow in alphabetical order. *)
Theorem jtswing_seasons_preferred_then_alphabetical (cats : list str) :
  let order := jtswing.season_order cats in
  let num := jtswing.season_num order in
  NoDup order ∧
  (∀ c, c ∈ order ↔ c ∈ cats) ∧
  (∀ c, c ∈ cats → 1 ≤ num c ≤ length order ∧ order !! (num c - 1) = Some c) ∧
  (∀ c d, c ∈ cats → d ∈ cats →
     c ∈ jtswing.PREFERRED_ORDER → d ∉ jtswing.PREFERRED_ORDER →
     num c < num d) ∧
  (∀ i j c d, c ∈ cats → d ∈ cats →
     jtswing.PREFERRED_ORDER !! i = Some c →
     jtswing.PREFERRED_ORDER !! j = Some d → i < j →
     num c < num d) ∧
  (∀ c d, c ∈ cats → d ∈ cats →
     c ∉ jtswing.PREFERRED_ORDER → d ∉ jtswing.PREFERRED_ORDER →
     c ≠ d → str_le c d →
     num c < num d).
Proof.
  intros order num. unfold num, order. clear num order.
  rewrite jt_season_order_unfold.
  set (first := append_unseen (λ c, bool_decide (c ∈ cats)) []
                  jtswing.PREFERRED_ORDER).
  assert (∀ c, c ∈ first ↔ c ∈ jtswing.PREFERRED_ORDER ∧ c ∈ cats) as Hfirst.
  { intros c. unfold first. rewrite append_unseen_elem, bool_decide_eq_true.
    split; [by intros [?%elem_of_nil|?]|by right]. }
  assert (NoDup first) as Hndf by apply append_unseen_NoDup, NoDup_nil_2.
  assert (∀ c, c ∈ append_unseen (λ _, true) first (sorted cats) ↔ c ∈ cats)
    as Helem.
  { intros c. rewrite append_unseen_elem, elem_of_sorted, Hfirst. tauto. }
  assert (NoDup jtswing.PREFERRED_ORDER) as Hndp.
  { apply (bool_decide_unpack _). by vm_compute. }
  split; [by apply append_unseen_NoDup|]. split; [done|].
  split; [|split; [|split]].
  - intros c Hc. apply jt_season_num_lookup. by apply Helem.
  - intros c d Hc Hd Hcp Hdp.
    apply (jt_season_num_lt first); [apply append_unseen_prefix| | |].
    + by apply Hfirst.
    + rewrite Hfirst. tauto.
    + by apply Helem.
  - intros i j c d Hc Hd Hi Hj Hij.
    assert (c ∈ first) as Hcf by (apply Hfirst; split;
      [by eapply list_elem_of_lookup_2|done]).
    assert (d ∈ first) as Hdf by (apply Hfirst; split;
      [by eapply list_elem_of_lookup_2|done]).
    rewrite (jt_season_num_prefix first _ c), (jt_season_num_prefix first _ d)
      by (done || apply append_unseen_prefix).
    assert (d ∉ take i jtswing.PREFERRED_ORDER) as Hdt.
    { intros [k Hk]%list_elem_of_lookup_1.
      apply lookup_take_Some in Hk as [Hk Hlt].
      pose proof (NoDup_lookup _ _ _ _ Hndp Hk Hj). lia. }
    assert (d ≠ c) as Hdc.
    { intros ->. pose proof (NoDup_lookup _ _ _ _ Hndp Hi Hj). lia. }
    pose proof (take_drop_middle _ _ _ Hi) as Hmid.
    revert Hdf. unfold first. rewrite <- Hmid. intros Hdf.
    apply append_unseen_before;
      [by apply bool_decide_eq_true|apply not_elem_of_nil|done..].
  - intros c d Hc Hd Hcp Hdp Hne Hle.
    pose proof (StronglySorted_merge_sort str_le cats) as Hs.
    fold (sorted cats) in Hs.
    assert (c ∈ sorted cats) as Hcs by by apply elem_of_sorted.
    apply list_elem_of_split in Hcs as (l1 & l2 & Hsplit).
    assert (d ∈ append_unseen (λ _, true) first (sorted cats)) as Hdo
      by by apply Helem.
    rewrite Hsplit in *.
    apply append_unseen_before; [done| | |by intros ->|done].
    + rewrite Hfirst. tauto.
    + intros Hdl. pose proof (StronglySorted_app_1_elem_of _ _ _ d c Hs Hdl
        (list_elem_of_here _ _)) as Hdc.
      apply Hne. by apply (anti_symm str_le).
Qed.

(** ** Runs of organize_uscreen_tree_as_show.py and
    organize_dance_tvshows.py *)



















